(** * PlotJS: a shallow embedding of [plot.js] and its checked properties

    [plot.js] is a pen-relative wrapper around the canvas 2D context.  A
    [Plot] object keeps a current pen position ([lastPoint]), a fixed
    [origin], a flag [isDrawing], handles on the canvas element and its
    context, and a registry [rects] of named rounded rectangles.  Every
    method either updates these fields, calls the context, or both, and
    returns [this].

    The embedding follows the source method by method:
    - a JS number is an exact rational or [NaN] (see [num]); rounding and
      the infinities of IEEE doubles are outside the model;
    - point objects live in a store and the fields [lastPoint] and [origin]
      hold references, because the constructor makes both fields point to
      the same object;
    - the canvas context is an external object: every method call and
      property write it receives is recorded, in order, in a trace; it
      refuses an [arc] or [arcTo] with a negative radius, as the HTML
      standard says, and that call throws;
    - a method is a state transformer that may throw; what it did before
      throwing stays done. *)

From Stdlib Require Import QArith Qcanon Qfield.
From stdpp Require Import base option list strings gmap.

Local Open Scope string_scope.

(** ** Numbers *)

(** The numbers the program computes with.  [Fin q] is the rational [q];
    [NaN] is what JS arithmetic yields on an [undefined] operand. *)
Inductive num : Type :=
| NaN
| Fin (q : Qc).

Definition of_Z (z : Z) : num := Fin (Qc_of_Z z).

(** [a + b] *)
Definition nadd (a b : num) : num :=
  match a, b with
  | Fin p, Fin q => Fin (p + q)%Qc
  | _, _ => NaN
  end.

(** [a - b] *)
Definition nsub (a b : num) : num :=
  match a, b with
  | Fin p, Fin q => Fin (p - q)%Qc
  | _, _ => NaN
  end.

(** [-a] *)
Definition nneg (a : num) : num :=
  match a with
  | Fin p => Fin (- p)%Qc
  | NaN => NaN
  end.

(** [a * b] *)
Definition nmul (a b : num) : num :=
  match a, b with
  | Fin p, Fin q => Fin (p * q)%Qc
  | _, _ => NaN
  end.

(** [a / 2]; the program divides by the literal 2 only. *)
Definition nhalf (a : num) : num :=
  match a with
  | Fin p => Fin (p / Qc_of_Z 2)%Qc
  | NaN => NaN
  end.

(** JS truthiness of a number: [0] and [NaN] are falsy. *)
Definition truthy (a : num) : bool :=
  match a with
  | Fin p => negb (Qnum p =? 0)%Z
  | NaN => false
  end.

(** Not [NaN]; the model has no infinities. *)
Definition finite (a : num) : bool :=
  match a with
  | Fin _ => true
  | NaN => false
  end.

(** [a < 0] *)
Definition negative (a : num) : bool :=
  match a with
  | Fin p => (Qnum p <? 0)%Z
  | NaN => false
  end.

Declare Scope num_scope.
Delimit Scope num_scope with num.
Bind Scope num_scope with num.
Infix "+" := nadd : num_scope.
Infix "-" := nsub : num_scope.
Infix "*" := nmul : num_scope.
Notation "- a" := (nneg a) : num_scope.

(** An optional argument: [None] is an omitted ([undefined]) argument. *)
Definition or_num (x : option num) (d : num) : num :=
  match x with
  | Some n => if truthy n then n else d
  | None => d
  end.

(** [s || d] on an optional string: the empty string is falsy. *)
Definition or_string (s : option string) (d : string) : string :=
  match s with
  | Some v => if bool_decide (v = "") then d else v
  | None => d
  end.

(** ** Values of the global scope *)

Inductive JsVal : Type :=
| VUndefined
| VNumber (n : num)
| VObject.

(** [ToNumber] on the values above (a function or plain object gives NaN). *)
Definition ToNumber (v : JsVal) : num :=
  match v with
  | VNumber n => n
  | VUndefined | VObject => NaN
  end.

(** [ToNumber] of a property that may be absent. *)
Definition prop_number (p : option num) : num :=
  match p with
  | Some n => n
  | None => NaN
  end.

(** The global scope: identifier to value. *)
Abbreviation Globals := (gmap string JsVal).

(** What loading [plot.js] binds: the constructor function [Plot]
    (whose property [Plot.convert] holds [Math.PI/180]).  No other global
    identifier is declared by the file. *)
Definition plot_js_globals : Globals := {[ "Plot" := VObject ]}.

(** ** Objects *)

Module Point.
Record t : Type := mk { x : num; y : num }.
End Point.

Module Rect.
Record t : Type :=
  mk { width : num; height : num; radius : num; x : num; y : num }.
End Rect.

(** Calls and property writes received by the drawing surface (the 2D
    context, and the canvas element for [width]). *)
Module Ctx.
Inductive call : Type :=
| set_strokeStyle (v : string)
| set_lineWidth (v : num)
| moveTo (x y : num)
| lineTo (x y : num)
| stroke
| fill
| arc (x y r startAngle endAngle : num) (anticlockwise : bool)
| arcTo (x1 y1 x2 y2 r : num)
| quadraticCurveTo (cpx cpy x y : num)
| strokeRect (x y w h : num)
| beginPath
| closePath
| strokeText (text : string) (x y : num)
| canvas_set_width (v : option num).
End Ctx.

(** The 2D context handle returned by [getContext("2d")]. *)
Inductive Context : Type := Context2D.

(** A DOM element as [Plot] sees it.  [width] and [height] are [None] when
    the element has no such property; [getContext] is [None] when the
    element is not a canvas, and otherwise holds what [getContext("2d")]
    returns ([None] for [null]). *)
Module Element.
Record t : Type :=
  mk { width : option num; height : option num;
       getContext : option (option Context) }.
End Element.

(** [document.getElementById]. *)
Abbreviation Document := (string -> option Element.t).

(** A reference to a point object in the store. *)
Abbreviation ref := nat.

(** The fields of a [Plot] instance.  [context] is [None] when the field is
    unset or [null]; [rects] is [None] until [roundRect] creates it. *)
Module Plot.
Record t : Type :=
  mk { lastPoint : ref; origin : ref; id : string; isDrawing : bool;
       canvas : option Element.t; context : option Context;
       rects : option (gmap string Rect.t) }.

(** [Plot.convert = Math.PI/180]: the double nearest to pi/180, which
    is 5030569068109113 / 2^58. *)
Definition convert : num :=
  Fin (Q2Qc (5030569068109113 # 288230376151711744)).

Definition set_lastPoint (r : ref) (p : t) : t :=
  mk r (origin p) (id p) (isDrawing p) (canvas p) (context p) (rects p).
Definition set_isDrawing (b : bool) (p : t) : t :=
  mk (lastPoint p) (origin p) (id p) b (canvas p) (context p) (rects p).
Definition set_rects (m : gmap string Rect.t) (p : t) : t :=
  mk (lastPoint p) (origin p) (id p) (isDrawing p) (canvas p) (context p)
     (Some m).
End Plot.

(** The whole state: the [Plot] instance, the store of point objects and
    the trace of what the surface has received. *)
Record World : Type :=
  mkWorld { this : Plot.t; points : list Point.t; calls : list Ctx.call }.

(** Reading a point object through a reference.  References held by a
    [Plot] always point into the store (see [store_ok]). *)
Definition deref (w : World) (r : ref) : Point.t :=
  default (Point.mk NaN NaN) (points w !! r).

(** The pen position, as a value. *)
Definition pen (w : World) : Point.t := deref w (Plot.lastPoint (this w)).

(** ** Methods as state transformers that may throw *)

Inductive Error : Type := TypeError | ReferenceError | IndexSizeError.

Inductive Res (A : Type) : Type :=
| Ok (a : A)
| Throw (e : Error).
Arguments Ok {A} a.
Arguments Throw {A} e.

Definition M (A : Type) : Type := World -> Res A * World.

Definition ret {A} (a : A) : M A := fun w => (Ok a, w).
Definition throw {A} (e : Error) : M A := fun w => (Throw e, w).
Definition bind {A B} (m : M A) (k : A -> M B) : M B :=
  fun w =>
    match m w with
    | (Ok a, w') => k a w'
    | (Throw e, w') => (Throw e, w')
    end.
Definition modify (f : World -> World) : M unit := fun w => (Ok tt, f w).

Notation "'let*' x ':=' m 'in' k" := (bind m (fun x => k))
  (at level 10, x name, m at level 100, k at level 200).
Notation "m ';;' k" := (bind m (fun _ => k))
  (at level 100, k at level 200, right associativity).

(** State after running a method, and its outcome. *)
Definition after {A} (m : M A) (w : World) : World := snd (m w).
Definition outcome {A} (m : M A) (w : World) : Res A := fst (m w).

(** Allocating a fresh point object. *)
Definition alloc (p : Point.t) : M ref :=
  fun w => (Ok (length (points w)),
            mkWorld (this w) (points w ++ [p]) (calls w)).

(** Reading and writing the fields of [this]. *)
Definition read {A} (f : Plot.t -> A) : M A := fun w => (Ok (f (this w)), w).
Definition write (f : Plot.t -> Plot.t) : M unit :=
  modify (fun w => mkWorld (f (this w)) (points w) (calls w)).
Definition load (r : ref) : M Point.t := fun w => (Ok (deref w r), w).

(** [this.context.<member>]: evaluating the member on an unset or [null]
    context throws a [TypeError], before any argument is evaluated. *)
Definition the_context : M Context :=
  fun w =>
    match Plot.context (this w) with
    | Some c => (Ok c, w)
    | None => (Throw TypeError, w)
    end.

(** [this.canvas.<member>], likewise. *)
Definition the_canvas : M Element.t :=
  fun w =>
    match Plot.canvas (this w) with
    | Some e => (Ok e, w)
    | None => (Throw TypeError, w)
    end.

(** The surface receives a call.  This is for the calls and property
    writes that the 2D context never refuses: [moveTo], [lineTo],
    [quadraticCurveTo], [stroke], [fill], [beginPath], [closePath],
    [strokeRect], [strokeText], and the writes of [strokeStyle],
    [lineWidth] and [width]. *)
Definition emit (c : Ctx.call) : M unit :=
  modify (fun w => mkWorld (this w) (points w) (calls w ++ [c])).

(** What the 2D context answers to a call: [arc] and [arcTo] return at
    once when an argument is not finite, and otherwise throw an
    [IndexSizeError] when the radius is negative; no other call throws. *)
Definition surface_error (c : Ctx.call) : option Error :=
  match c with
  | Ctx.arc x y r startAngle endAngle _ =>
      if finite x && finite y && finite r && finite startAngle
         && finite endAngle && negative r
      then Some IndexSizeError else None
  | Ctx.arcTo x1 y1 x2 y2 r =>
      if finite x1 && finite y1 && finite x2 && finite y2 && finite r
         && negative r
      then Some IndexSizeError else None
  | _ => None
  end.

(** A call that the surface may refuse: it is received, or it throws. *)
Definition call (c : Ctx.call) : M unit :=
  match surface_error c with
  | Some e => throw e
  | None => emit c
  end.

(** Resolving a global identifier: unbound identifiers throw. *)
Definition global (g : Globals) (name : string) : M JsVal :=
  match g !! name with
  | Some v => ret v
  | None => throw ReferenceError
  end.

(** ** The constructor *)

(** [function Plot(id, lineColor, lineWidth)] *)
Definition new_Plot (document : Document) (id : string)
    (lineColor : option string) (lineWidth : option num) : World :=
  let canvas := document id in
  let context :=
    match canvas with
    | Some e =>
        match Element.getContext e with
        | Some c => c
        | None => None
        end
    | None => None
    end in
  mkWorld
    (Plot.mk 0 0 id false canvas context None)
    [Point.mk (of_Z 0) (of_Z 0)]
    match context with
    | Some _ =>
        [Ctx.set_strokeStyle (or_string lineColor "#000");
         Ctx.set_lineWidth (or_num lineWidth (of_Z 1))]
    | None => []
    end.

(** ** [Plot.prototype] *)

(** [updateLastPoint(x, y, absolute)] *)
Definition updateLastPoint (x y : num) (absolute : bool) : M unit :=
  let* p :=
    (if absolute then ret (Point.mk x y)
     else
       let* lp := read Plot.lastPoint in
       let* o := load lp in
       ret (Point.mk (x + Point.x o) (y + Point.y o))) in
  let* r := alloc p in
  write (Plot.set_lastPoint r).

(** [move(x, y, absolute)] *)
Definition move (x y : num) (absolute : bool) : M unit :=
  updateLastPoint x y absolute ;;
  let* _ := the_context in
  let* lp := read Plot.lastPoint in
  let* o := load lp in
  emit (Ctx.moveTo (Point.x o) (Point.y o)).

(** [hmove(x)] *)
Definition hmove (x : num) : M unit := move x (of_Z 0) false.

(** [vmove(y)] *)
Definition vmove (y : num) : M unit := move (of_Z 0) y false.

(** [home()] *)
Definition home : M unit :=
  let* og := read Plot.origin in
  let* o := load og in
  updateLastPoint (Point.x o) (Point.y o) true ;;
  let* _ := the_context in
  let* lp := read Plot.lastPoint in
  let* l := load lp in
  emit (Ctx.moveTo (Point.x l) (Point.y l)).

(** [line(x, y)] *)
Definition line (x y : num) : M unit :=
  updateLastPoint x y false ;;
  let* _ := the_context in
  let* lp := read Plot.lastPoint in
  let* o := load lp in
  emit (Ctx.lineTo (Point.x o) (Point.y o)).

(** [stroke()] *)
Definition stroke : M unit :=
  let* _ := the_context in emit Ctx.stroke.

(** [fill()] *)
Definition fill : M unit :=
  let* _ := the_context in emit Ctx.fill.

(** [hline(x)] *)
Definition hline (x : num) : M unit := line x (of_Z 0).

(** [vline(y)] *)
Definition vline (y : num) : M unit := line (of_Z 0) y.

(** [arc(x, y, r, startAngle, endAngle)].  The body multiplies both angles
    by the free identifier [c], which is resolved in the global scope [g]
    each time it is evaluated. *)
Definition arc (g : Globals) (x y r startAngle endAngle : num) : M unit :=
  let* _ := the_context in
  let* c1 := global g "c" in
  let* c2 := global g "c" in
  call (Ctx.arc x y r (startAngle * ToNumber c1) (endAngle * ToNumber c2)
          false).

(** [arcTo(ax, ay, r)] *)
Definition arcTo (ax ay r : num) : M unit :=
  let* lpr := read Plot.lastPoint in
  let* lp := load lpr in
  let* _ := the_context in
  call (Ctx.arcTo (Point.x lp) (Point.y lp)
          (Point.x lp + ax) (Point.y lp + ay) r) ;;
  updateLastPoint ax ay false.

(** The [var x = this.lastPoint.x, y = this.lastPoint.y] that opens each
    corner helper. *)
Definition read_pen : M Point.t :=
  let* lp := read Plot.lastPoint in load lp.

(** [ne(r)] *)
Definition ne (r : num) : M unit :=
  let* p := read_pen in
  let x := Point.x p in let y := Point.y p in
  let* _ := the_context in
  emit (Ctx.quadraticCurveTo x (y - r) (x + r) (y - r)) ;;
  move r (- r) false.

(** [se(r)] *)
Definition se (r : num) : M unit :=
  let* p := read_pen in
  let x := Point.x p in let y := Point.y p in
  let* _ := the_context in
  emit (Ctx.quadraticCurveTo x (y + r) (x + r) (y + r)) ;;
  move r r false.

(** [nw(r)] *)
Definition nw (r : num) : M unit :=
  let* p := read_pen in
  let x := Point.x p in let y := Point.y p in
  let* _ := the_context in
  emit (Ctx.quadraticCurveTo x (y - r) (x - r) (y - r)) ;;
  move (- r) (- r) false.

(** [sw(r)] *)
Definition sw (r : num) : M unit :=
  let* p := read_pen in
  let x := Point.x p in let y := Point.y p in
  let* _ := the_context in
  emit (Ctx.quadraticCurveTo x (y + r) (x - r) (y + r)) ;;
  move (- r) r false.

(** [wn(r)] *)
Definition wn (r : num) : M unit :=
  let* p := read_pen in
  let x := Point.x p in let y := Point.y p in
  let* _ := the_context in
  emit (Ctx.quadraticCurveTo (x - r) y (x - r) (y - r)) ;;
  move (- r) (- r) false.

(** [ws(r)] *)
Definition ws (r : num) : M unit :=
  let* p := read_pen in
  let x := Point.x p in let y := Point.y p in
  let* _ := the_context in
  emit (Ctx.quadraticCurveTo (x - r) y (x - r) (y + r)) ;;
  move (- r) r false.

(** [en(r)] *)
Definition en (r : num) : M unit :=
  let* p := read_pen in
  let x := Point.x p in let y := Point.y p in
  let* _ := the_context in
  emit (Ctx.quadraticCurveTo (x + r) y (x + r) (y - r)) ;;
  move r (- r) false.

(** [es(r)] *)
Definition es (r : num) : M unit :=
  let* p := read_pen in
  let x := Point.x p in let y := Point.y p in
  let* _ := the_context in
  emit (Ctx.quadraticCurveTo (x + r) y (x + r) (y + r)) ;;
  move r r false.

(** [getCenter()] *)
Definition getCenter : M Point.t :=
  let* canvas := the_canvas in
  ret (Point.mk (nhalf (prop_number (Element.width canvas)))
                (nhalf (prop_number (Element.height canvas)))).

(** [centerRect(w, h)] *)
Definition centerRect (w : num) (h : option num) : M unit :=
  let* center := getCenter in
  let h := or_num h w in
  let* _ := the_context in
  emit (Ctx.strokeRect (Point.x center - nhalf w) (Point.y center - nhalf h)
          w h).

(** [setLineColor(color)] *)
Definition setLineColor (color : string) : M unit :=
  let* _ := the_context in emit (Ctx.set_strokeStyle color).

(** [setLineWidth(width)] *)
Definition setLineWidth (width : num) : M unit :=
  let* _ := the_context in emit (Ctx.set_lineWidth width).

(** [center()] *)
Definition center : M unit :=
  let* c := getCenter in
  move (Point.x c) (Point.y c) true.

(** [begin()] *)
Definition begin : M unit :=
  let* _ := the_context in emit Ctx.beginPath.

(** [start()] *)
Definition start : M unit :=
  move (of_Z 0) (of_Z 0) false ;;
  begin.

(** [end(closePath)]; [end] is a reserved word here. *)
Definition end_ (closePath : bool) : M unit :=
  let* _ := the_context in
  emit Ctx.stroke ;;
  (if closePath then let* _ := the_context in emit Ctx.closePath
   else ret tt) ;;
  let* d := read Plot.isDrawing in
  if d then write (Plot.set_isDrawing false) else ret tt.

(** [reset()] *)
Definition reset : M unit :=
  let* canvas := the_canvas in
  emit (Ctx.canvas_set_width (Element.width canvas)).

(** [point()] *)
Definition point : M unit :=
  begin ;;
  let* _ := the_context in
  let* p := read_pen in
  emit (Ctx.strokeText "." (Point.x p) (Point.y p)) ;;
  end_ false.

(** [roundRect(width, height, radius, x, y, id)] *)
Definition roundRect (width height radius : num) (x y : option num)
    (id : string) : M unit :=
  let* center := getCenter in
  let x := or_num x (Point.x center - nhalf width + radius) in
  let y := or_num y (Point.y center - nhalf height) in
  let* old := read Plot.rects in
  write (Plot.set_rects
           (<[id := Rect.mk width height radius x y]> (default ∅ old))) ;;
  start ;;
  move x y true ;;
  hline (width - radius - radius) ;;
  es radius ;;
  vline (height - radius - radius) ;;
  sw radius ;;
  hline (- width + radius + radius) ;;
  wn radius ;;
  vline (- height + radius + radius) ;;
  ne radius ;;
  end_ false.

(** [loc()] returns a string built from [lastPoint]; it has no effect, and
    only that is recorded here. *)
Definition loc : M unit := read_pen ;; ret tt.

(** ** Sequences of method calls *)

(** One call of a method of [Plot.prototype], with its arguments. *)
Inductive op : Type :=
| OupdateLastPoint (x y : num) (absolute : bool)
| Omove (x y : num) (absolute : bool)
| Ohmove (x : num)
| Ovmove (y : num)
| Ohome
| Oline (x y : num)
| Ostroke
| Ofill
| Ohline (x : num)
| Ovline (y : num)
| Oarc (x y r startAngle endAngle : num)
| OarcTo (ax ay r : num)
| One (r : num)
| Ose (r : num)
| Onw (r : num)
| Osw (r : num)
| Own (r : num)
| Ows (r : num)
| Oen (r : num)
| Oes (r : num)
| OcenterRect (w : num) (h : option num)
| OsetLineColor (color : string)
| OsetLineWidth (width : num)
| OgetCenter
| Ocenter
| Obegin
| Ostart
| Oend (closePath : bool)
| Oreset
| Opoint
| Oloc
| OroundRect (width height radius : num) (x y : option num) (id : string).

Definition run (g : Globals) (o : op) : M unit :=
  match o with
  | OupdateLastPoint x y a => updateLastPoint x y a
  | Omove x y a => move x y a
  | Ohmove x => hmove x
  | Ovmove y => vmove y
  | Ohome => home
  | Oline x y => line x y
  | Ostroke => stroke
  | Ofill => fill
  | Ohline x => hline x
  | Ovline y => vline y
  | Oarc x y r s e => arc g x y r s e
  | OarcTo ax ay r => arcTo ax ay r
  | One r => ne r
  | Ose r => se r
  | Onw r => nw r
  | Osw r => sw r
  | Own r => wn r
  | Ows r => ws r
  | Oen r => en r
  | Oes r => es r
  | OcenterRect w h => centerRect w h
  | OsetLineColor c => setLineColor c
  | OsetLineWidth n => setLineWidth n
  | OgetCenter => getCenter ;; ret tt
  | Ocenter => center
  | Obegin => begin
  | Ostart => start
  | Oend c => end_ c
  | Oreset => reset
  | Opoint => point
  | Oloc => loc
  | OroundRect w h r x y i => roundRect w h r x y i
  end.

(** The states a program can bring a [Plot] to: construction, then any
    calls of its methods, whether they return or throw. *)
Inductive reachable (g : Globals) : World -> Prop :=
| reach_new document id lineColor lineWidth :
    reachable g (new_Plot document id lineColor lineWidth)
| reach_call w o :
    reachable g w -> reachable g (after (run g o) w).

(** ** The model the specification gives for [start] *)

(** [start()] as section 4.3 of the specification words it: an absolute
    move to [(0,0)] followed by [begin()]. *)
Definition start_spec : M unit :=
  move (of_Z 0) (of_Z 0) true ;;
  begin.

(** Between [w] and [w'] no field of the plotter other than [lastPoint]
    has changed, and every point object of [w] is still what it was. *)
Definition only_lastPoint_changed (w w' : World) : Prop :=
  Plot.origin (this w') = Plot.origin (this w) /\
  Plot.id (this w') = Plot.id (this w) /\
  Plot.isDrawing (this w') = Plot.isDrawing (this w) /\
  Plot.canvas (this w') = Plot.canvas (this w) /\
  Plot.context (this w') = Plot.context (this w) /\
  Plot.rects (this w') = Plot.rects (this w) /\
  forall r, r < length (points w) -> deref w' r = deref w r.

(** Methods that call [end] (directly, or as the last step of their body). *)
Definition calls_end (o : op) : bool :=
  match o with
  | Oend _ | Opoint | OroundRect _ _ _ _ _ _ => true
  | _ => false
  end.

(** What any method may do to the state: [origin], [id], [canvas] and
    [context] keep their values, the store and the trace only grow, a valid
    [lastPoint] stays valid, and [isDrawing] keeps its value, or, when
    [clearing] is allowed, becomes [false]. *)
Definition ext (clearing : bool) (w w' : World) : Prop :=
  Plot.origin (this w') = Plot.origin (this w) /\
  Plot.id (this w') = Plot.id (this w) /\
  Plot.canvas (this w') = Plot.canvas (this w) /\
  Plot.context (this w') = Plot.context (this w) /\
  (exists ps, points w' = (points w ++ ps)%list) /\
  (exists cs, calls w' = (calls w ++ cs)%list) /\
  (Plot.lastPoint (this w) < length (points w) ->
   Plot.lastPoint (this w') < length (points w')) /\
  (Plot.isDrawing (this w') = Plot.isDrawing (this w) \/
   (clearing = true /\ Plot.isDrawing (this w') = false)).

(** The registry of named rectangles is the same in both states. *)
Definition same_rects (w w' : World) : Prop :=
  Plot.rects (this w') = Plot.rects (this w).

(** A method that relates every state to the state it leaves. *)
Definition keeps (R : World -> World -> Prop) {A} (m : M A) : Prop :=
  forall w, R w (after m w).

(** The references of the plotter point into the store. *)
Definition store_ok (w : World) : Prop :=
  Plot.lastPoint (this w) < length (points w) /\
  Plot.origin (this w) < length (points w).

(** How [isDrawing] may differ after a call of [o]: not at all, or, for a
    method that calls [end], by having been cleared. *)
Definition isDrawing_step (o : op) (w w' : World) : Prop :=
  Plot.isDrawing (this w') = Plot.isDrawing (this w) \/
  (calls_end o = true /\ Plot.isDrawing (this w') = false).

(** ** Reading results *)

(** A number as a reduced fraction ([None] for [NaN]), and a point as a
    pair of them: the form in which computed results are compared. *)
Definition value (n : num) : option Q :=
  match n with
  | Fin q => Some (Qcanon.this q)
  | NaN => None
  end.

Definition coords (p : Point.t) : option Q * option Q :=
  (value (Point.x p), value (Point.y p)).

(** ** Sample pages *)

(** A 200 by 100 canvas with a working 2D context. *)
Definition canvas_200x100 : Element.t :=
  Element.mk (Some (of_Z 200)) (Some (of_Z 100)) (Some (Some Context2D)).

(** A page whose only element is that canvas, under the id ["plot"]. *)
Definition page : Document :=
  fun id => if String.eqb id "plot" then Some canvas_200x100 else None.

(** A plotter on the canvas, and one whose lookup finds nothing. *)
Definition plot0 : World := new_Plot page "plot" None None.
Definition orphan : World := new_Plot page "missing" None None.

(** [w'] comes from [w] by storing in [lastPoint] a new point object, at
    the prior pen position plus [(dx, dy)]. *)
Definition updates_pen (dx dy : num) (w w' : World) : Prop :=
  Plot.lastPoint (this w') = length (points w) /\
  pen w' = Point.mk (Point.x (pen w) + dx) (Point.y (pen w) + dy).

(** The shape shared by the eight corner helpers: read the pen, send one
    curve to the context, then move by [(dx, dy)]. *)
Definition corner (curve : Point.t -> Ctx.call) (dx dy : num) : M unit :=
  let* p := read_pen in
  let* _ := the_context in
  emit (curve p) ;;
  move dx dy false.

(** The methods that draw on, or style, the surface through the context
    (all but [updateLastPoint], [getCenter], [reset] and [loc]). *)
Definition drawing (o : op) : bool :=
  match o with
  | OupdateLastPoint _ _ _ | OgetCenter | Oreset | Oloc => false
  | _ => true
  end.

(** The pen position a drawing method has already stored in [lastPoint]
    when it reaches the context, if it stores one before that point. *)
Definition pen_before_context (o : op) (w : World) : option Point.t :=
  let p := pen w in
  match o with
  | Omove x y true => Some (Point.mk x y)
  | Omove x y false | Oline x y =>
      Some (Point.mk (x + Point.x p) (y + Point.y p))
  | Ohmove x | Ohline x =>
      Some (Point.mk (x + Point.x p) (of_Z 0 + Point.y p))
  | Ovmove y | Ovline y =>
      Some (Point.mk (of_Z 0 + Point.x p) (y + Point.y p))
  | Ohome =>
      let o := deref w (Plot.origin (this w)) in
      Some (Point.mk (Point.x o) (Point.y o))
  | Ostart => Some (Point.mk (of_Z 0 + Point.x p) (of_Z 0 + Point.y p))
  | Ocenter =>
      match Plot.canvas (this w) with
      | Some e =>
          Some (Point.mk (nhalf (prop_number (Element.width e)))
                         (nhalf (prop_number (Element.height e))))
      | None => None
      end
  | OroundRect _ _ _ _ _ _ =>
      match Plot.canvas (this w) with
      | Some _ => Some (Point.mk (of_Z 0 + Point.x p) (of_Z 0 + Point.y p))
      | None => None
      end
  | _ => None
  end.

(** The plotter [plot0] after [move(5, 7)]. *)
Definition plot57 : World := after (move (of_Z 5) (of_Z 7) false) plot0.

(** The descriptor [roundRect] records, given the canvas element [e] it
    reads the midpoint from: the arguments, with [x] and [y] replaced by
    the centred defaults when they are falsy. *)
Definition descriptor (e : Element.t) (width height radius : num)
    (x y : option num) : Rect.t :=
  let cx := nhalf (prop_number (Element.width e)) in
  let cy := nhalf (prop_number (Element.height e)) in
  Rect.mk width height radius
    (or_num x (cx - nhalf width + radius))
    (or_num y (cy - nhalf height)).

(** The registry, read as a map ([rects] unset reads as empty). *)
Definition registry (w : World) : gmap string Rect.t :=
  default ∅ (Plot.rects (this w)).

(** ** Working plotters *)

(** [m], run on a plotter that has a context and the canvas element [e],
    returns normally, takes the pen from [p] to [f p], sends the calls
    [tr p] to the surface, in that order, and is an [ext]-step. *)
Definition steps (e : Element.t) (m : M unit) (f : Point.t -> Point.t)
    (tr : Point.t -> list Ctx.call) : Prop :=
  forall w,
    Plot.context (this w) = Some Context2D ->
    Plot.canvas (this w) = Some e ->
    outcome m w = Ok tt /\
    pen (after m w) = f (pen w) /\
    calls (after m w) = (calls w ++ tr (pen w))%list /\
    ext true w (after m w).

(** [m], run on such a plotter, returns normally and leaves such a
    plotter. *)
Definition succeeds (e : Element.t) {A} (m : M A) : Prop :=
  forall w,
    Plot.context (this w) = Some Context2D ->
    Plot.canvas (this w) = Some e ->
    (exists a, outcome m w = Ok a) /\
    Plot.context (this (after m w)) = Some Context2D /\
    Plot.canvas (this (after m w)) = Some e.

(** The pen moved by [(dx, dy)], in the order the code adds. *)
Definition shift (dx dy : num) (p : Point.t) : Point.t :=
  Point.mk (dx + Point.x p) (dy + Point.y p).

(** The pen positions along the outline [roundRect] traces from [(x, y)],
    each computed from the one before as the code does: along the top edge
    ([p2]), round the top right corner ([p3]), down the right side
    ([p4]), round the bottom right corner ([p5]), back along the bottom
    ([p6]), round the bottom left corner ([p7]), up the left side ([p8]),
    round the top left corner ([p9]).  With them, the calls the surface
    receives: a segment to the end of each side, and at each corner a
    quadratic curve through the corner to the start of the next side,
    followed by a [moveTo] to that point.  The result is the calls and the
    last pen position. *)
Definition outline (x y w h r : num) : list Ctx.call * Point.t :=
  let p1 := Point.mk x y in
  let p2 := Point.mk (x + (w - r - r)) y in
  let p3 := Point.mk (Point.x p2 + r) (Point.y p2 + r) in
  let p4 := Point.mk (Point.x p3) (Point.y p3 + (h - r - r)) in
  let p5 := Point.mk (Point.x p4 - r) (Point.y p4 + r) in
  let p6 := Point.mk (Point.x p5 + (- w + r + r)) (Point.y p5) in
  let p7 := Point.mk (Point.x p6 - r) (Point.y p6 - r) in
  let p8 := Point.mk (Point.x p7) (Point.y p7 + (- h + r + r)) in
  let p9 := Point.mk (Point.x p8 + r) (Point.y p8 - r) in
  let to p := Ctx.moveTo (Point.x p) (Point.y p) in
  let segment p := Ctx.lineTo (Point.x p) (Point.y p) in
  let curve cx cy p := Ctx.quadraticCurveTo cx cy (Point.x p) (Point.y p) in
  ([ to p1;
     segment p2; curve (Point.x p3) (Point.y p2) p3; to p3;
     segment p4; curve (Point.x p4) (Point.y p5) p5; to p5;
     segment p6; curve (Point.x p7) (Point.y p6) p7; to p7;
     segment p8; curve (Point.x p8) (Point.y p9) p9; to p9 ],
   p9).

(** The calls [roundRect] chains after recording the rectangle. *)
Definition roundRect_path (width height radius x y : num) : M unit :=
  start ;; move x y true ;;
  hline (width - radius - radius) ;; es radius ;;
  vline (height - radius - radius) ;; sw radius ;;
  hline (- width + radius + radius) ;; wn radius ;;
  vline (- height + radius + radius) ;; ne radius ;;
  end_ false.

(** Methods that never call [updateLastPoint]. *)
Definition keeps_pen (o : op) : bool :=
  match o with
  | Ostroke | Ofill | Oarc _ _ _ _ _ | OcenterRect _ _ | OsetLineColor _
  | OsetLineWidth _ | OgetCenter | Obegin | Oend _ | Oreset | Opoint
  | Oloc => true
  | _ => false
  end.

(** A page with one element, of any kind, under the id ["plot"]. *)
Definition page_with (e : Element.t) : Document :=
  fun id => if String.eqb id "plot" then Some e else None.

(** An element that is not a canvas: no [width], no [height], no
    [getContext]. *)
Definition div : Element.t := Element.mk None None None.


(** The state after a sequence of calls, whether they return or throw. *)
Fixpoint run_all (g : Globals) (os : list op) (w : World) : World :=
  match os with
  | [] => w
  | o :: os' => run_all g os' (after (run g o) w)
  end.

(** The context the constructor obtains from what the lookup returned. *)
Definition context_of (canvas : option Element.t) : option Context :=
  match canvas with
  | Some e =>
      match Element.getContext e with
      | Some c => c
      | None => None
      end
  | None => None
  end.



(** Every point object of [w] is still what it was in [w']. *)
Definition objects_kept (w w' : World) : Prop :=
  forall r, r < length (points w) -> deref w' r = deref w r.

(** [origin] is the first point object and [lastPoint] the newest. *)
Definition latest_ok (w : World) : Prop :=
  Plot.origin (this w) = 0 /\
  S (Plot.lastPoint (this w)) = length (points w).

(** The pen reference and the store are the same in both states. *)
Definition same_pen (w w' : World) : Prop :=
  Plot.lastPoint (this w') = Plot.lastPoint (this w) /\
  points w' = points w.

(** What a call of [o] may do to the registry: [roundRect] may change the
    entry of its own [id]; no other method changes anything. *)
Definition registry_step (o : op) (w w' : World) : Prop :=
  match o with
  | OroundRect _ _ _ _ _ id =>
      forall k, k <> id -> registry w' !! k = registry w !! k
  | _ => Plot.rects (this w') = Plot.rects (this w)
  end.

(** A plotter over an element that is not a canvas. *)
Definition plot_div : World := new_Plot (page_with div) "plot" None None.

(** Methods that read the canvas element. *)
Definition reads_canvas (o : op) : bool :=
  match o with
  | OgetCenter | Oreset => true
  | _ => false
  end.

(** The outcome of a method on a plotter without a context: the drawing
    methods throw; [updateLastPoint] and [loc] return; [getCenter] and
    [reset] return if there is an element. *)
Definition outcome_without_context (o : op) (w : World) : Res unit :=
  if drawing o then Throw TypeError
  else if reads_canvas o then
    match Plot.canvas (this w) with
    | Some _ => Ok tt
    | None => Throw TypeError
    end
  else Ok tt.

(** The midpoint of an element, as [getCenter] computes it. *)
Definition midpoint (e : Element.t) : Point.t :=
  Point.mk (nhalf (prop_number (Element.width e)))
           (nhalf (prop_number (Element.height e))).

(** * Properties *)

(** ** The model at work *)

(** The scenario of the specification: on a 200 by 100 surface, [center()]
    puts the pen at [(100, 50)]; then [line(10, -5)] puts it at
    [(110, 45)] and sends one [lineTo]. *)
Example scenario_center_then_line :
  let w := after center plot0 in
  let w' := after (line (of_Z 10) (of_Z (-5))) w in
  coords (pen w) = (Some 100%Q, Some 50%Q) /\
  coords (pen w') = (Some 110%Q, Some 45%Q) /\
  outcome (line (of_Z 10) (of_Z (-5))) w = Ok tt /\
  length (calls w') = S (length (calls w)).
Proof. vm_compute. repeat split. Qed.

(** [roundRect(100, 50, 10)] on that surface runs to the end and brings
    the pen back to where the path started, at [(60, 25)]. *)
Example scenario_roundRect :
  let m := roundRect (of_Z 100) (of_Z 50) (of_Z 10) None None "box1" in
  outcome m plot0 = Ok tt /\
  coords (pen (after m plot0)) = (Some 60%Q, Some 25%Q) /\
  length (calls (after m plot0)) = 18.
Proof. vm_compute. repeat split. Qed.

(** ** Arithmetic of [num] *)

Ltac qc_field :=
  apply Qc_is_canon;
  unfold Qcdiv, Qcmult, Qcinv, Qcminus, Qcplus, Qcopp, Qc_of_Z, Q2Qc;
  simpl Qcanon.this; rewrite ?Qred_correct; first [ring | field].

Ltac num_eq :=
  intros;
  repeat match goal with n : num |- _ => destruct n end;
  unfold nadd, nsub, nneg, nmul, nhalf, of_Z;
  try reflexivity; f_equal; qc_field.

Lemma nadd_comm (a b : num) : (a + b = b + a)%num.
Proof. num_eq. Qed.

Lemma nadd_0_l (a : num) : (of_Z 0 + a = a)%num.
Proof. num_eq. Qed.

Lemma nadd_neg (a b : num) : (- b + a = a - b)%num.
Proof. num_eq. Qed.

(** ** The store *)

Lemma deref_alloc (t : Plot.t) (ps : list Point.t) (cs : list Ctx.call)
    (p : Point.t) :
  deref (mkWorld t (ps ++ [p]) cs) (length ps) = p.
Proof.
  unfold deref; cbn.
  rewrite lookup_app_r by lia.
  now rewrite Nat.sub_diag.
Qed.

Lemma deref_old (t t' : Plot.t) (ps qs : list Point.t)
    (cs cs' : list Ctx.call) (r : ref) :
  r < length ps ->
  deref (mkWorld t' (ps ++ qs) cs') r = deref (mkWorld t ps cs) r.
Proof.
  intros Hr. unfold deref; cbn.
  now rewrite lookup_app_l.
Qed.

(** What [updateLastPoint] does, in one equation. *)
Lemma updateLastPoint_eq (x y : num) (absolute : bool) (w : World) :
  updateLastPoint x y absolute w =
  (Ok tt,
   mkWorld (Plot.set_lastPoint (length (points w)) (this w))
     (points w ++
        [if absolute then Point.mk x y
         else Point.mk (x + Point.x (pen w)) (y + Point.y (pen w))])
     (calls w)).
Proof. destruct absolute; reflexivity. Qed.

(** What [move] does, in one equation. *)
Lemma move_eq (x y : num) (absolute : bool) (w : World) :
  move x y absolute w =
  let p := if absolute then Point.mk x y
           else Point.mk (x + Point.x (pen w)) (y + Point.y (pen w)) in
  let t := Plot.set_lastPoint (length (points w)) (this w) in
  match Plot.context (this w) with
  | Some _ =>
      (Ok tt, mkWorld t (points w ++ [p])
                (calls w ++ [Ctx.moveTo (Point.x p) (Point.y p)]))
  | None => (Throw TypeError, mkWorld t (points w ++ [p]) (calls w))
  end.
Proof.
  unfold move, bind at 1. rewrite updateLastPoint_eq.
  destruct w as [t ps cs]; cbn.
  unfold the_context, bind at 1; cbn.
  destruct (Plot.context t); [|reflexivity].
  unfold bind, read, load, emit, modify; cbn.
  now rewrite deref_alloc.
Qed.

(** The state [move] leaves, whether it returns or throws. *)
Lemma move_after (x y : num) (absolute : bool) (w : World) :
  exists cs,
    after (move x y absolute) w =
    mkWorld (Plot.set_lastPoint (length (points w)) (this w))
      (points w ++
         [if absolute then Point.mk x y
          else Point.mk (x + Point.x (pen w)) (y + Point.y (pen w))])
      cs.
Proof.
  unfold after. rewrite move_eq. cbn zeta.
  destruct (Plot.context (this w)); cbn [snd]; eauto.
Qed.

(** C1.  For every state of the plotter and all numbers [dx], [dy],
    [move(dx, dy, false)] leaves [lastPoint] at the prior [lastPoint] plus
    [(dx, dy)], component by component, and [move(dx, dy, true)] leaves it
    at exactly [(dx, dy)].  No other field of the plotter changes
    ([origin], [id], [isDrawing], [canvas], [context], [rects]), and no
    point object that existed before the call is modified. *)
Theorem move_sets_lastPoint (w : World) (dx dy : num) :
  let rel := after (move dx dy false) w in
  let abs := after (move dx dy true) w in
  pen rel = Point.mk (Point.x (pen w) + dx) (Point.y (pen w) + dy) /\
  pen abs = Point.mk dx dy /\
  only_lastPoint_changed w rel /\ only_lastPoint_changed w abs.
Proof.
  cbn zeta.
  destruct (move_after dx dy false w) as [cr Hr].
  destruct (move_after dx dy true w) as [ca Ha].
  rewrite Hr, Ha.
  rewrite (nadd_comm (Point.x (pen w)) dx), (nadd_comm (Point.y (pen w)) dy).
  destruct w as [t ps cs]; cbn [this points calls].
  repeat split; try apply deref_alloc; intros r Hlt; now apply deref_old.
Qed.

(** ** What every method leaves alone *)

(** Any reflexive and transitive relation that [emit] and
    [updateLastPoint] respect is respected by every method built from
    them; [end] also needs the write of [isDrawing], and [roundRect] the
    write of [rects]. *)
Create HintDb plot.

Section Keeps.
Variable R : World -> World -> Prop.
Hypothesis R_refl : forall w, R w w.
Hypothesis R_trans : forall w1 w2 w3, R w1 w2 -> R w2 w3 -> R w1 w3.

Lemma keeps_bind {A B} (m : M A) (k : A -> M B) :
  keeps R m -> (forall a, keeps R (k a)) -> keeps R (bind m k).
Proof using R_trans.
  intros Hm Hk w. specialize (Hm w). unfold after, bind in *.
  destruct (m w) as [[a | e] w1]; cbn [snd] in *.
  - eapply R_trans; [exact Hm | apply Hk].
  - exact Hm.
Qed.

Lemma keeps_pure {A} (m : M A) :
  (forall w, snd (m w) = w) -> keeps R m.
Proof using R_refl. intros H w. unfold after. rewrite H. apply R_refl. Qed.

Lemma keeps_ret {A} (a : A) : keeps R (ret a).
Proof using R_refl. now apply keeps_pure. Qed.

Lemma keeps_throw {A} (e : Error) : keeps R (@throw A e).
Proof using R_refl. now apply keeps_pure. Qed.

Lemma keeps_read {A} (f : Plot.t -> A) : keeps R (read f).
Proof using R_refl. now apply keeps_pure. Qed.

Lemma keeps_load (r : ref) : keeps R (load r).
Proof using R_refl. now apply keeps_pure. Qed.

Lemma keeps_the_context : keeps R the_context.
Proof using R_refl.
  apply keeps_pure. intros w. unfold the_context.
  now destruct (Plot.context (this w)).
Qed.

Lemma keeps_the_canvas : keeps R the_canvas.
Proof using R_refl.
  apply keeps_pure. intros w. unfold the_canvas.
  now destruct (Plot.canvas (this w)).
Qed.

Lemma keeps_global (g : Globals) (name : string) : keeps R (global g name).
Proof using R_refl.
  apply keeps_pure. intros w. unfold global.
  now destruct (g !! name).
Qed.

Hypothesis R_emit : forall c, keeps R (emit c).
Hypothesis R_update : forall x y a, keeps R (updateLastPoint x y a).

Lemma keeps_call (c : Ctx.call) : keeps R (call c).
Proof using R_refl R_emit.
  unfold call. destruct (surface_error c); [apply keeps_throw | apply R_emit].
Qed.

#[local] Hint Resolve keeps_ret keeps_throw keeps_read keeps_load
  keeps_the_context keeps_the_canvas keeps_global R_emit R_update
  keeps_call : plot.

(** Walks through a method body, one [bind] at a time. *)
Ltac keeps_body :=
  repeat first
    [ solve [auto with plot]
    | progress cbv zeta
    | apply keeps_bind; [|intros]
    | match goal with
      | |- keeps _ (if ?c then _ else _) => destruct c
      end ].

Lemma keeps_move x y a : keeps R (move x y a).
Proof using R_refl R_trans R_emit R_update. unfold move. keeps_body. Qed.

Lemma keeps_line x y : keeps R (line x y).
Proof using R_refl R_trans R_emit R_update. unfold line. keeps_body. Qed.

Lemma keeps_begin : keeps R begin.
Proof using R_refl R_trans R_emit. unfold begin. keeps_body. Qed.

Lemma keeps_read_pen : keeps R read_pen.
Proof using R_refl R_trans. unfold read_pen. keeps_body. Qed.

Lemma keeps_getCenter : keeps R getCenter.
Proof using R_refl R_trans. unfold getCenter. keeps_body. Qed.

#[local] Hint Resolve keeps_move keeps_line keeps_begin keeps_read_pen
  keeps_getCenter : plot.

Lemma keeps_start : keeps R start.
Proof using R_refl R_trans R_emit R_update. unfold start. keeps_body. Qed.

Lemma keeps_corners r :
  keeps R (ne r) /\ keeps R (se r) /\ keeps R (nw r) /\ keeps R (sw r) /\
  keeps R (wn r) /\ keeps R (ws r) /\ keeps R (en r) /\ keeps R (es r).
Proof using R_refl R_trans R_emit R_update.
  unfold ne, se, nw, sw, wn, ws, en, es.
  repeat match goal with |- _ /\ _ => split end; keeps_body.
Qed.

(** Methods that do not call [end]. *)
Lemma keeps_quiet (g : Globals) (o : op) :
  calls_end o = false -> keeps R (run g o).
Proof using R_refl R_trans R_emit R_update.
  destruct o; cbn [calls_end run]; try discriminate; intros _;
    try (destruct (keeps_corners r) as (? & ? & ? & ? & ? & ? & ? & ?);
         assumption);
    unfold hmove, vmove, home, stroke, fill, hline, vline, arc, arcTo,
      centerRect, setLineColor, setLineWidth, center, reset, loc;
    keeps_body.
Qed.

Hypothesis R_clear : keeps R (write (Plot.set_isDrawing false)).

Lemma keeps_end c : keeps R (end_ c).
Proof using R_refl R_trans R_emit R_clear.
  pose proof R_clear. unfold end_. keeps_body.
Qed.

(** The calls [roundRect] chains after recording the rectangle. *)
Lemma keeps_roundRect_path (width height radius x y : num) :
  keeps R
    (start ;; move x y true ;;
     hline (width - radius - radius) ;; es radius ;;
     vline (height - radius - radius) ;; sw radius ;;
     hline (- width + radius + radius) ;; wn radius ;;
     vline (- height + radius + radius) ;; ne radius ;;
     end_ false).
Proof using R_refl R_trans R_emit R_update R_clear.
  destruct (keeps_corners radius) as (? & ? & ? & ? & ? & ? & ? & ?).
  pose proof keeps_start. pose proof (keeps_end false).
  unfold hline, vline. keeps_body.
Qed.

Hypothesis R_rects : forall m, keeps R (write (Plot.set_rects m)).

Lemma keeps_run (g : Globals) (o : op) : keeps R (run g o).
Proof using R_refl R_trans R_emit R_update R_clear R_rects.
  destruct (calls_end o) eqn:E; [|now apply keeps_quiet].
  destruct o; try discriminate; cbn [run].
  - apply keeps_end.
  - pose proof (keeps_end false). unfold point. keeps_body.
  - pose proof (keeps_roundRect_path width height radius).
    unfold roundRect. keeps_body.
Qed.
End Keeps.

(** [ext] is such a relation. *)
Lemma ext_refl (b : bool) (w : World) : ext b w w.
Proof.
  unfold ext. repeat (split; [reflexivity|]).
  split; [exists []; now rewrite app_nil_r|].
  split; [exists []; now rewrite app_nil_r|].
  split; [trivial | now left].
Qed.

Lemma ext_trans (b : bool) (w1 w2 w3 : World) :
  ext b w1 w2 -> ext b w2 w3 -> ext b w1 w3.
Proof.
  intros (Ho & Hi & Hc & Hx & [ps Hp] & [cs Hs] & Hl & Hd)
         (Ho' & Hi' & Hc' & Hx' & [ps' Hp'] & [cs' Hs'] & Hl' & Hd').
  unfold ext.
  rewrite Ho', Hi', Hc', Hx', Hp', Hs', Hp, Hs, <- !app_assoc.
  do 4 (split; [assumption|]).
  split; [eauto|]. split; [eauto|]. split.
  - intros H. apply Hl in H. apply Hl' in H.
    now rewrite Hp', Hp, <- app_assoc in H.
  - destruct Hd' as [-> | [? ->]]; [assumption | right; now split].
Qed.

Lemma ext_emit b (c : Ctx.call) : keeps (ext b) (emit c).
Proof.
  intros w. unfold ext, after, emit, modify; cbn.
  repeat (split; [reflexivity|]).
  split; [exists []; now rewrite app_nil_r|].
  split; [now exists [c]|].
  split; [trivial | now left].
Qed.

Lemma ext_updateLastPoint b (x y : num) (a : bool) :
  keeps (ext b) (updateLastPoint x y a).
Proof.
  intros w. unfold after. rewrite updateLastPoint_eq.
  unfold ext; cbn.
  repeat (split; [reflexivity|]).
  split; [eauto|].
  split; [exists []; now rewrite app_nil_r|].
  split; [|now left].
  intros _. rewrite length_app; cbn. lia.
Qed.

Lemma ext_set_rects b (m : gmap string Rect.t) :
  keeps (ext b) (write (Plot.set_rects m)).
Proof.
  intros w. unfold ext, after, write, modify; cbn.
  repeat (split; [reflexivity|]).
  split; [exists []; now rewrite app_nil_r|].
  split; [exists []; now rewrite app_nil_r|].
  split; [trivial | now left].
Qed.

Lemma ext_clear_isDrawing : keeps (ext true) (write (Plot.set_isDrawing false)).
Proof.
  intros w. unfold ext, after, write, modify; cbn.
  repeat (split; [reflexivity|]).
  split; [exists []; now rewrite app_nil_r|].
  split; [exists []; now rewrite app_nil_r|].
  split; [trivial | now right].
Qed.

Lemma ext_weaken (w w' : World) : ext false w w' -> ext true w w'.
Proof.
  unfold ext. intros (? & ? & ? & ? & ? & ? & ? & [H | [H _]]);
    [|discriminate]; repeat (split; [assumption|]); now left.
Qed.

(** Every method call is an [ext]-step; it may clear [isDrawing] only when
    it calls [end]. *)
Lemma ext_run (g : Globals) (o : op) : keeps (ext (calls_end o)) (run g o).
Proof.
  destruct (calls_end o) eqn:E.
  - apply keeps_run;
      [ apply ext_refl | apply ext_trans | apply ext_emit
      | apply ext_updateLastPoint | apply ext_clear_isDrawing
      | apply ext_set_rects ].
  - apply keeps_quiet;
      [ apply ext_refl | apply ext_trans | apply ext_emit
      | apply ext_updateLastPoint | exact E ].
Qed.

(** So is [same_rects], for everything but the write of [rects]. *)
Lemma same_rects_path (width height radius x y : num) :
  keeps same_rects
    (start ;; move x y true ;;
     hline (width - radius - radius) ;; es radius ;;
     vline (height - radius - radius) ;; sw radius ;;
     hline (- width + radius + radius) ;; wn radius ;;
     vline (- height + radius + radius) ;; ne radius ;;
     end_ false).
Proof.
  apply keeps_roundRect_path; unfold same_rects; try congruence.
  - intros c w. reflexivity.
  - intros a b c w. unfold after. now rewrite updateLastPoint_eq.
  - intros w. reflexivity.
Qed.

(** ** Reachable states *)

Lemma reachable_inv (g : Globals) (w : World) :
  reachable g w ->
  points w !! Plot.origin (this w) = Some (Point.mk (of_Z 0) (of_Z 0)) /\
  Plot.isDrawing (this w) = false /\
  store_ok w.
Proof.
  induction 1 as [document id lineColor lineWidth | w o Hw (Ho & Hd & Hl & Hg)].
  - unfold store_ok; cbn. repeat split; lia.
  - destruct (ext_run g o w)
      as (Eo & _ & _ & _ & [ps Ep] & _ & El & Ed).
    unfold store_ok. rewrite Eo, Ep. repeat split.
    + now apply lookup_app_l_Some.
    + destruct Ed as [-> | [_ ->]]; [assumption | reflexivity].
    + rewrite <- Ep. now apply El.
    + rewrite length_app. lia.
Qed.

(** The state [home] leaves, whether it returns or throws. *)
Lemma home_after (w : World) :
  exists cs,
    after home w =
    mkWorld (Plot.set_lastPoint (length (points w)) (this w))
      (points w ++ [deref w (Plot.origin (this w))]) cs.
Proof.
  unfold after, home, bind at 1, read; cbn [fst snd].
  unfold bind at 1, load; cbn [fst snd].
  unfold bind at 1. rewrite updateLastPoint_eq.
  destruct (deref w (Plot.origin (this w))) as [ox oy]; cbn [Point.x Point.y].
  unfold bind at 1, the_context;
    cbn [this Plot.context Plot.set_lastPoint].
  destruct (Plot.context (this w)); cbn; eauto.
Qed.

(** C7.  In every state reachable from construction by calls of the
    methods, [origin] still refers to a point object holding [(0, 0)], and
    [home()] leaves [lastPoint] at [(0, 0)], whatever the pen position was;
    this although the constructor stores one and the same object in
    [lastPoint] and [origin]. *)
Theorem home_sets_lastPoint_to_origin (g : Globals) (w : World) :
  reachable g w ->
  deref w (Plot.origin (this w)) = Point.mk (of_Z 0) (of_Z 0) /\
  pen (after home w) = Point.mk (of_Z 0) (of_Z 0) /\
  (forall document id lineColor lineWidth,
     let fresh := new_Plot document id lineColor lineWidth in
     Plot.lastPoint (this fresh) = Plot.origin (this fresh)).
Proof.
  intros Hw. destruct (reachable_inv g w Hw) as (Ho & _ & _).
  assert (Hd : deref w (Plot.origin (this w)) = Point.mk (of_Z 0) (of_Z 0))
    by (unfold deref; now rewrite Ho).
  split; [exact Hd|]. split; [|reflexivity].
  destruct (home_after w) as [cs ->]. rewrite Hd.
  apply deref_alloc.
Qed.

(** A state reached by moving the pen, drawing, and ending the path. *)
Lemma home_sets_lastPoint_to_origin_witness :
  let w := after (run plot_js_globals (Oend true))
             (after (run plot_js_globals (Oline (of_Z 3) (of_Z 4)))
                (after (run plot_js_globals (Omove (of_Z 5) (of_Z 7) false))
                   plot0)) in
  reachable plot_js_globals w /\
  pen (after home w) = Point.mk (of_Z 0) (of_Z 0).
Proof.
  intros w.
  assert (Hw : reachable plot_js_globals w)
    by (unfold w, plot0; do 3 apply reach_call; apply reach_new).
  split; [exact Hw|].
  exact (proj1 (proj2 (home_sets_lastPoint_to_origin plot_js_globals w Hw))).
Defined.

(** C9.  [isDrawing] is [false] in every state reachable from construction
    by calls of the methods: the constructor sets it to [false]; a call
    leaves it as it was, unless the method is [end] (or [point] or
    [roundRect], which finish by calling [end]), and then it can only have
    been cleared; no call sets it to [true]. *)
Theorem isDrawing_is_never_set (g : Globals) :
  (forall document id lineColor lineWidth,
     Plot.isDrawing (this (new_Plot document id lineColor lineWidth)) = false)
  /\
  (forall o w, isDrawing_step o w (after (run g o) w)) /\
  (forall w, reachable g w -> Plot.isDrawing (this w) = false).
Proof.
  split; [reflexivity|]. split.
  - intros o w. unfold isDrawing_step.
    now destruct (ext_run g o w) as (_ & _ & _ & _ & _ & _ & _ & Ed).
  - intros w Hw. now destruct (reachable_inv g w Hw) as (_ & Hd & _).
Qed.

Lemma isDrawing_is_never_set_witness :
  let w := after (run plot_js_globals (OroundRect (of_Z 100) (of_Z 50)
                    (of_Z 10) None None "box1"))
             (after (run plot_js_globals Obegin) plot0) in
  reachable plot_js_globals w /\ Plot.isDrawing (this w) = false.
Proof.
  intros w.
  assert (Hw : reachable plot_js_globals w)
    by (unfold w, plot0; do 2 apply reach_call; apply reach_new).
  split; [exact Hw|].
  exact (proj2 (proj2 (isDrawing_is_never_set plot_js_globals)) w Hw).
Defined.

(** ** Path drawing *)

(** What [line] does, in one equation. *)
Lemma line_eq (x y : num) (w : World) :
  line x y w =
  let p := Point.mk (x + Point.x (pen w)) (y + Point.y (pen w)) in
  let t := Plot.set_lastPoint (length (points w)) (this w) in
  match Plot.context (this w) with
  | Some _ =>
      (Ok tt, mkWorld t (points w ++ [p])
                (calls w ++ [Ctx.lineTo (Point.x p) (Point.y p)]))
  | None => (Throw TypeError, mkWorld t (points w ++ [p]) (calls w))
  end.
Proof.
  unfold line, bind at 1. rewrite updateLastPoint_eq.
  destruct w as [t ps cs]; cbn.
  unfold the_context, bind at 1; cbn.
  destruct (Plot.context t); [|reflexivity].
  unfold bind, read, load, emit, modify; cbn.
  now rewrite deref_alloc.
Qed.

(** The context refuses only negative radii. *)
Lemma arcTo_accepted (x1 y1 x2 y2 r : num) :
  negative r = false -> surface_error (Ctx.arcTo x1 y1 x2 y2 r) = None.
Proof.
  intros Hr. unfold surface_error. rewrite Hr.
  now rewrite andb_false_r.
Qed.

Lemma arcTo_refused (x1 y1 x2 y2 r : num) (e : Error) :
  surface_error (Ctx.arcTo x1 y1 x2 y2 r) = Some e -> e = IndexSizeError.
Proof.
  unfold surface_error.
  destruct (finite x1 && finite y1 && finite x2 && finite y2 && finite r
            && negative r); [now intros [= <-] | discriminate].
Qed.

(** What [arcTo] does on a plotter with a context: the context is called
    first, and the pen is updated only if the call returns. *)
Lemma arcTo_eq (ax ay r : num) (w : World) (c : Context) :
  Plot.context (this w) = Some c ->
  arcTo ax ay r w =
  match
    surface_error
      (Ctx.arcTo (Point.x (pen w)) (Point.y (pen w))
         (Point.x (pen w) + ax) (Point.y (pen w) + ay) r)
  with
  | Some e => (Throw e, w)
  | None =>
      (Ok tt,
       mkWorld (Plot.set_lastPoint (length (points w)) (this w))
         (points w ++
            [Point.mk (ax + Point.x (pen w)) (ay + Point.y (pen w))])
         (calls w ++
            [Ctx.arcTo (Point.x (pen w)) (Point.y (pen w))
               (Point.x (pen w) + ax) (Point.y (pen w) + ay) r]))
  end.
Proof.
  intros Hc. unfold arcTo, bind at 1, read. unfold bind at 1, load.
  unfold bind at 1, the_context. rewrite Hc.
  unfold bind at 1, call. fold (pen w).
  destruct (surface_error _); [reflexivity|].
  unfold emit, modify. now rewrite updateLastPoint_eq.
Qed.

(** What a corner helper does on a plotter with a context. *)
Lemma corner_eq (curve : Point.t -> Ctx.call) (dx dy : num) (w : World)
    (c : Context) :
  Plot.context (this w) = Some c ->
  corner curve dx dy w =
  (Ok tt,
   mkWorld (Plot.set_lastPoint (length (points w)) (this w))
     (points w ++
        [Point.mk (dx + Point.x (pen w)) (dy + Point.y (pen w))])
     (calls w ++
        [curve (pen w);
         Ctx.moveTo (dx + Point.x (pen w)) (dy + Point.y (pen w))])).
Proof.
  intros Hc.
  unfold corner, read_pen, bind, read, load, the_context, emit, modify.
  rewrite Hc. cbn [this points calls]. rewrite move_eq.
  cbn [this points calls]. rewrite Hc. cbn zeta.
  now rewrite <- app_assoc.
Qed.

(** Each helper is an instance of [corner]. *)
Lemma corners_unfold (r : num) :
  ne r = corner (fun p => Ctx.quadraticCurveTo (Point.x p) (Point.y p - r)
                            (Point.x p + r) (Point.y p - r)) r (- r) /\
  se r = corner (fun p => Ctx.quadraticCurveTo (Point.x p) (Point.y p + r)
                            (Point.x p + r) (Point.y p + r)) r r /\
  nw r = corner (fun p => Ctx.quadraticCurveTo (Point.x p) (Point.y p - r)
                            (Point.x p - r) (Point.y p - r)) (- r) (- r) /\
  sw r = corner (fun p => Ctx.quadraticCurveTo (Point.x p) (Point.y p + r)
                            (Point.x p - r) (Point.y p + r)) (- r) r /\
  wn r = corner (fun p => Ctx.quadraticCurveTo (Point.x p - r) (Point.y p)
                            (Point.x p - r) (Point.y p - r)) (- r) (- r) /\
  ws r = corner (fun p => Ctx.quadraticCurveTo (Point.x p - r) (Point.y p)
                            (Point.x p - r) (Point.y p + r)) (- r) r /\
  en r = corner (fun p => Ctx.quadraticCurveTo (Point.x p + r) (Point.y p)
                            (Point.x p + r) (Point.y p - r)) r (- r) /\
  es r = corner (fun p => Ctx.quadraticCurveTo (Point.x p + r) (Point.y p)
                            (Point.x p + r) (Point.y p + r)) r r.
Proof. repeat split. Qed.

(** The pen after a corner helper, on a plotter with a context. *)
Lemma corner_pen (curve : Point.t -> Ctx.call) (dx dy : num) (w : World)
    (c : Context) :
  Plot.context (this w) = Some c ->
  updates_pen dx dy w (after (corner curve dx dy) w).
Proof.
  intros Hc. unfold after. rewrite (corner_eq _ _ _ _ c Hc).
  unfold updates_pen, pen at 1. cbn [snd this Plot.lastPoint
    Plot.set_lastPoint points].
  split; [reflexivity|].
  rewrite (nadd_comm (Point.x (pen w))), (nadd_comm (Point.y (pen w))).
  destruct w; apply deref_alloc.
Qed.

Lemma nadd_nneg (a b : num) : (a + - b = a - b)%num.
Proof. num_eq. Qed.

(** C5.  On a plotter with a drawing context, for every radius [r] and
    every prior pen position [(x, y)], each compass corner helper leaves
    [lastPoint] at the prior position plus its table offset: [ne] and [en]
    at [(x+r, y-r)], [se] and [es] at [(x+r, y+r)], [nw] and [wn] at
    [(x-r, y-r)], [sw] and [ws] at [(x-r, y+r)]. *)
Theorem corner_helpers_offsets (w : World) (r : num) :
  Plot.context (this w) = Some Context2D ->
  let x := Point.x (pen w) in
  let y := Point.y (pen w) in
  pen (after (ne r) w) = Point.mk (x + r) (y - r) /\
  pen (after (en r) w) = Point.mk (x + r) (y - r) /\
  pen (after (se r) w) = Point.mk (x + r) (y + r) /\
  pen (after (es r) w) = Point.mk (x + r) (y + r) /\
  pen (after (nw r) w) = Point.mk (x - r) (y - r) /\
  pen (after (wn r) w) = Point.mk (x - r) (y - r) /\
  pen (after (sw r) w) = Point.mk (x - r) (y + r) /\
  pen (after (ws r) w) = Point.mk (x - r) (y + r).
Proof.
  intros Hc x y.
  destruct (corners_unfold r) as (-> & -> & -> & -> & -> & -> & -> & ->).
  repeat match goal with |- _ /\ _ => split end;
    match goal with
    | |- pen (after (corner ?f ?dx ?dy) w) = _ =>
        destruct (corner_pen f dx dy w _ Hc) as [_ ->]
    end;
    fold x y; now rewrite ?nadd_nneg.
Qed.

Lemma corner_helpers_offsets_witness :
  Plot.context (this plot0) = Some Context2D /\
  pen (after (ne (of_Z 10)) plot0) =
  Point.mk (of_Z 0 + of_Z 10) (of_Z 0 - of_Z 10).
Proof.
  split; [reflexivity|].
  exact (proj1 (corner_helpers_offsets plot0 (of_Z 10) eq_refl)).
Defined.

(** ** [arc] *)

(** What [arc] does, in one equation. *)
Lemma arc_eq (g : Globals) (x y r startAngle endAngle : num) (w : World) :
  arc g x y r startAngle endAngle w =
  match Plot.context (this w) with
  | None => (Throw TypeError, w)
  | Some _ =>
      match g !! "c" with
      | None => (Throw ReferenceError, w)
      | Some c =>
          let a := Ctx.arc x y r (startAngle * ToNumber c)
                     (endAngle * ToNumber c) false in
          match surface_error a with
          | Some e => (Throw e, w)
          | None =>
              (Ok tt, mkWorld (this w) (points w) (calls w ++ [a]))
          end
      end
  end.
Proof.
  unfold arc, bind, the_context, global.
  destruct (Plot.context (this w)); [|reflexivity].
  destruct (g !! "c") as [v|]; [|reflexivity].
  cbv zeta. unfold ret, call.
  destruct (surface_error _); reflexivity.
Qed.

(** [plot.js] declares no global [c]. *)
Lemma plot_js_globals_c : plot_js_globals !! "c" = None.
Proof. unfold plot_js_globals. now apply lookup_singleton_ne. Qed.

(** With [plot.js] alone in the page, [arc] on a working plotter throws
    before anything reaches the context. *)
Lemma arc_unbound_c (x y r startAngle endAngle : num) (w : World)
    (c : Context) :
  Plot.context (this w) = Some c ->
  arc plot_js_globals x y r startAngle endAngle w = (Throw ReferenceError, w).
Proof. intros Hc. now rewrite arc_eq, Hc, plot_js_globals_c. Qed.

(** C3.  [arc(0, 0, 10, 0, 90)] on a freshly built plotter over a working
    canvas does not issue an arc command: resolving the identifier [c]
    throws a [ReferenceError], and the context has received nothing more
    than the two style writes of the constructor. *)
Theorem arc_throws_ReferenceError :
  outcome (arc plot_js_globals (of_Z 0) (of_Z 0) (of_Z 10) (of_Z 0) (of_Z 90))
    plot0 = Throw ReferenceError /\
  calls (after (arc plot_js_globals (of_Z 0) (of_Z 0) (of_Z 10) (of_Z 0)
                  (of_Z 90)) plot0) =
  [Ctx.set_strokeStyle "#000"; Ctx.set_lineWidth (of_Z 1)].
Proof.
  unfold outcome, after.
  rewrite (arc_unbound_c _ _ _ _ _ plot0 Context2D eq_refl).
  split; reflexivity.
Qed.

(** C8.  For all arguments and every state, [arc] leaves [lastPoint] as it
    was: the field, the point object it refers to, and indeed every field
    of the plotter.  On a plotter with a drawing context, every other
    path-drawing method ([line], [hline], [vline], [arcTo] and the eight
    corner helpers) stores a new pen position in [lastPoint] when it
    returns; they all return, except that the context refuses an [arcTo]
    with a negative radius, which then throws an [IndexSizeError] before
    the pen is touched. *)
Theorem arc_leaves_lastPoint (g : Globals) (w : World)
    (x y r startAngle endAngle : num) :
  (let w' := after (arc g x y r startAngle endAngle) w in
   Plot.lastPoint (this w') = Plot.lastPoint (this w) /\
   pen w' = pen w /\ this w' = this w /\ points w' = points w) /\
  (Plot.context (this w) = Some Context2D ->
   forall dx dy rr : num,
     updates_pen dx dy w (after (line dx dy) w) /\
     updates_pen dx (of_Z 0) w (after (hline dx) w) /\
     updates_pen (of_Z 0) dy w (after (vline dy) w) /\
     (negative rr = false ->
      outcome (arcTo dx dy rr) w = Ok tt /\
      updates_pen dx dy w (after (arcTo dx dy rr) w)) /\
     (outcome (arcTo dx dy rr) w = Ok tt /\
      updates_pen dx dy w (after (arcTo dx dy rr) w) \/
      negative rr = true /\
      arcTo dx dy rr w = (Throw IndexSizeError, w)) /\
     updates_pen rr (- rr) w (after (ne rr) w) /\
     updates_pen rr rr w (after (se rr) w) /\
     updates_pen (- rr) (- rr) w (after (nw rr) w) /\
     updates_pen (- rr) rr w (after (sw rr) w) /\
     updates_pen (- rr) (- rr) w (after (wn rr) w) /\
     updates_pen (- rr) rr w (after (ws rr) w) /\
     updates_pen rr (- rr) w (after (en rr) w) /\
     updates_pen rr rr w (after (es rr) w)).
Proof.
  split.
  - cbn zeta. unfold after. rewrite arc_eq.
    destruct (Plot.context (this w)); [destruct (g !! "c")|];
      cbv zeta; try destruct (surface_error _);
      cbn [snd]; repeat split.
  - intros Hc dx dy rr.
    assert (Hline : forall a b, updates_pen a b w (after (line a b) w)).
    { intros a b. unfold after. rewrite line_eq, Hc. cbn zeta.
      unfold updates_pen, pen at 1; cbn [snd this Plot.lastPoint
        Plot.set_lastPoint points].
      split; [reflexivity|].
      rewrite (nadd_comm (Point.x (pen w))), (nadd_comm (Point.y (pen w))).
      destruct w; apply deref_alloc. }
    assert (Harc : forall p,
               p = (Ok tt,
                    mkWorld (Plot.set_lastPoint (length (points w)) (this w))
                      (points w ++
                         [Point.mk (dx + Point.x (pen w))
                            (dy + Point.y (pen w))])
                      (calls w ++
                         [Ctx.arcTo (Point.x (pen w)) (Point.y (pen w))
                            (Point.x (pen w) + dx) (Point.y (pen w) + dy)
                            rr])) ->
               fst p = Ok tt /\ updates_pen dx dy w (snd p)).
    { intros p ->. split; [reflexivity|].
      unfold updates_pen, pen at 1; cbn [snd this Plot.lastPoint
        Plot.set_lastPoint points].
      split; [reflexivity|].
      rewrite (nadd_comm (Point.x (pen w))), (nadd_comm (Point.y (pen w))).
      destruct w; apply deref_alloc. }
    destruct (corners_unfold rr) as (-> & -> & -> & -> & -> & -> & -> & ->).
    split; [apply Hline|]. split; [apply Hline|]. split; [apply Hline|].
    split; [|split].
    { intros Hr. apply Harc. rewrite (arcTo_eq _ _ _ _ _ Hc).
      now rewrite arcTo_accepted. }
    { pose proof (arcTo_eq dx dy rr w _ Hc) as E.
      destruct (surface_error _) as [err|] eqn:Es.
      - right. rewrite (arcTo_refused _ _ _ _ _ _ Es) in E.
        split; [|exact E].
        destruct (negative rr) eqn:Hn; [reflexivity|].
        now rewrite arcTo_accepted in Es.
      - left. now apply Harc. }
    repeat match goal with |- _ /\ _ => split end;
      now apply corner_pen with (c := Context2D).
Qed.

Lemma arc_leaves_lastPoint_witness :
  Plot.context (this plot0) = Some Context2D /\
  negative (of_Z 1) = false /\
  pen (after (arc plot_js_globals (of_Z 50) (of_Z 50) (of_Z 10) (of_Z 0)
                (of_Z 90)) plot0) = pen plot0 /\
  updates_pen (of_Z 3) (of_Z 4) plot0 (after (line (of_Z 3) (of_Z 4)) plot0)
  /\
  updates_pen (of_Z 3) (of_Z 4) plot0
    (after (arcTo (of_Z 3) (of_Z 4) (of_Z 1)) plot0).
Proof.
  pose proof (arc_leaves_lastPoint plot_js_globals plot0 (of_Z 50) (of_Z 50)
                (of_Z 10) (of_Z 0) (of_Z 90)) as [Harc Hothers].
  split; [reflexivity|]. split; [reflexivity|]. split; [|split].
  - exact (proj1 (proj2 Harc)).
  - exact (proj1 (Hothers eq_refl (of_Z 3) (of_Z 4) (of_Z 1))).
  - exact (proj2 (proj1 (proj2 (proj2 (proj2
             (Hothers eq_refl (of_Z 3) (of_Z 4) (of_Z 1))))) eq_refl)).
Defined.

(** ** [start] *)

(** Closed equations and disequations between numerals. *)
Ltac num_calc :=
  repeat match goal with
    | |- _ /\ _ => split
    | |- Point.mk _ _ = Point.mk _ _ => f_equal
    | |- @eq num _ _ =>
        unfold of_Z, nadd, nsub, nneg, nmul, nhalf; f_equal;
        apply Qc_is_canon; reflexivity
    end.

Lemma point_eta (p : Point.t) : Point.mk (Point.x p) (Point.y p) = p.
Proof. now destruct p. Qed.

Lemma zero_offset (p : Point.t) :
  Point.mk (of_Z 0 + Point.x p) (of_Z 0 + Point.y p) = p.
Proof. rewrite !nadd_0_l. apply point_eta. Qed.

(** What [start] does, in one equation. *)
Lemma start_eq (w : World) :
  start w =
  let t := Plot.set_lastPoint (length (points w)) (this w) in
  match Plot.context (this w) with
  | Some _ =>
      (Ok tt,
       mkWorld t (points w ++ [pen w])
         (calls w ++
            [Ctx.moveTo (Point.x (pen w)) (Point.y (pen w)); Ctx.beginPath]))
  | None => (Throw TypeError, mkWorld t (points w ++ [pen w]) (calls w))
  end.
Proof.
  unfold start, bind at 1. rewrite move_eq. cbn zeta.
  rewrite zero_offset.
  destruct (Plot.context (this w)) eqn:Hc; [|reflexivity].
  unfold begin, bind, the_context, emit, modify;
    cbn [this points calls Plot.context Plot.set_lastPoint].
  rewrite Hc. cbn [this points calls]. now rewrite <- app_assoc.
Qed.

(** What the specification's [start] does, in one equation. *)
Lemma start_spec_eq (w : World) :
  start_spec w =
  let t := Plot.set_lastPoint (length (points w)) (this w) in
  let o := Point.mk (of_Z 0) (of_Z 0) in
  match Plot.context (this w) with
  | Some _ =>
      (Ok tt,
       mkWorld t (points w ++ [o])
         (calls w ++ [Ctx.moveTo (of_Z 0) (of_Z 0); Ctx.beginPath]))
  | None => (Throw TypeError, mkWorld t (points w ++ [o]) (calls w))
  end.
Proof.
  unfold start_spec, bind at 1. rewrite move_eq. cbn zeta.
  destruct (Plot.context (this w)) eqn:Hc; [|reflexivity].
  unfold begin, bind, the_context, emit, modify;
    cbn [this points calls Plot.context Plot.set_lastPoint Point.x Point.y].
  rewrite Hc. cbn [this points calls]. now rewrite <- app_assoc.
Qed.

Lemma start_pen (w : World) : pen (after start w) = pen w.
Proof.
  unfold after. rewrite start_eq. cbn zeta.
  destruct w as [t ps cs]; cbn [this points calls].
  destruct (Plot.context t); cbn [snd]; apply deref_alloc.
Qed.

Lemma start_spec_pen (w : World) :
  pen (after start_spec w) = Point.mk (of_Z 0) (of_Z 0).
Proof.
  unfold after. rewrite start_spec_eq. cbn zeta.
  destruct w as [t ps cs]; cbn [this points calls].
  destruct (Plot.context t); cbn [snd]; apply deref_alloc.
Qed.

Lemma pen_plot57 : pen plot57 = Point.mk (of_Z 5) (of_Z 7).
Proof.
  unfold plot57. destruct (move_after (of_Z 5) (of_Z 7) false plot0) as [cs ->].
  unfold pen; cbn [this Plot.lastPoint Plot.set_lastPoint].
  rewrite deref_alloc. num_calc.
Qed.

Lemma of_Z_inj (a b : Z) : of_Z a = of_Z b -> a = b.
Proof.
  unfold of_Z. intros H. now injection H.
Qed.

(** C4, as stated, fails: with the pen at [(5, 7)], [start()] leaves
    [lastPoint] at [(5, 7)], not at [(0, 0)], where [move(0,0,true)]
    followed by [begin()] leaves it. *)
Lemma start_is_not_absolute :
  pen (after start plot57) = Point.mk (of_Z 5) (of_Z 7) /\
  pen (after start_spec plot57) = Point.mk (of_Z 0) (of_Z 0) /\
  pen (after start plot57) <> Point.mk (of_Z 0) (of_Z 0) /\
  after start plot57 <> after start_spec plot57.
Proof.
  assert (Hne : Point.mk (of_Z 5) (of_Z 7) <> Point.mk (of_Z 0) (of_Z 0)).
  { intros H. assert (E : of_Z 5 = of_Z 0) by congruence.
    now apply of_Z_inj in E. }
  rewrite start_pen, start_spec_pen, pen_plot57.
  repeat split; [exact Hne|].
  intros H. apply (f_equal pen) in H.
  now rewrite start_pen, start_spec_pen, pen_plot57 in H.
Qed.

(** C4, amended.  For every plotter state, [start()] moves the pen by
    [(0, 0)] relative to where it is: [lastPoint] keeps its coordinates and
    no other field changes; on a plotter with a context the surface is told
    to move to that position and then to begin a path.  [start()] agrees
    with [move(0,0,true)] followed by [begin()] exactly when the pen is at
    [(0, 0)]. *)
Theorem start_is_relative (w : World) :
  pen (after start w) = pen w /\
  only_lastPoint_changed w (after start w) /\
  (Plot.context (this w) = Some Context2D ->
   outcome start w = Ok tt /\
   calls (after start w) =
   (calls w ++
      [Ctx.moveTo (Point.x (pen w)) (Point.y (pen w)); Ctx.beginPath])%list)
  /\
  (start w = start_spec w <-> pen w = Point.mk (of_Z 0) (of_Z 0)).
Proof.
  split; [apply start_pen|]. split; [|split].
  - unfold after. rewrite start_eq. cbn zeta.
    destruct w as [t ps cs]; cbn [this points calls].
    destruct (Plot.context t); cbn [snd];
      repeat split; intros r Hr; now apply deref_old.
  - intros Hc. unfold outcome, after. rewrite start_eq, Hc. now split.
  - rewrite start_eq, start_spec_eq. cbn zeta. split.
    + intros H.
      assert (Hp : (points w ++ [pen w])%list =
                   (points w ++ [Point.mk (of_Z 0) (of_Z 0)])%list)
        by (destruct (Plot.context (this w)); now injection H).
      apply app_inv_head in Hp. now injection Hp.
    + intros ->. reflexivity.
Qed.

Lemma start_is_relative_witness :
  Plot.context (this plot57) = Some Context2D /\
  pen (after start plot57) = pen plot57 /\
  outcome start plot57 = Ok tt.
Proof.
  pose proof (start_is_relative plot57) as (Hpen & _ & Hctx & _).
  split; [reflexivity|]. split; [exact Hpen|].
  exact (proj1 (Hctx eq_refl)).
Defined.

(** ** A plotter whose lookup failed *)

(** The lookup of ["missing"] finds no element: [canvas] and [context] are
    unset. *)
Lemma orphan_has_no_context :
  Plot.canvas (this orphan) = None /\ Plot.context (this orphan) = None.
Proof. split; reflexivity. Qed.

(** C2, as stated, fails: on a plotter whose lookup failed,
    [move(5, 7)] throws a [TypeError], and by then [lastPoint] has gone
    from [(0, 0)] to [(5, 7)]. *)
Lemma failed_move_has_moved_the_pen :
  Plot.context (this orphan) = None /\
  outcome (move (of_Z 5) (of_Z 7) false) orphan = Throw TypeError /\
  pen orphan = Point.mk (of_Z 0) (of_Z 0) /\
  pen (after (move (of_Z 5) (of_Z 7) false) orphan) =
  Point.mk (of_Z 5) (of_Z 7) /\
  pen (after (move (of_Z 5) (of_Z 7) false) orphan) <> pen orphan.
Proof.
  assert (Hp : pen (after (move (of_Z 5) (of_Z 7) false) orphan) =
               Point.mk (of_Z 5) (of_Z 7)).
  { destruct (move_after (of_Z 5) (of_Z 7) false orphan) as [cs ->].
    unfold pen; cbn [this Plot.lastPoint Plot.set_lastPoint].
    rewrite deref_alloc. num_calc. }
  rewrite Hp. repeat split.
  intros H. change (pen orphan) with (Point.mk (of_Z 0) (of_Z 0)) in H.
  assert (E : of_Z 5 = of_Z 0) by congruence.
  now apply of_Z_inj in E.
Qed.

(** C2, amended.  On a plotter whose lookup failed ([context] unset),
    every drawing method throws a [TypeError] and nothing reaches a
    surface.  [arc], [arcTo], the corner helpers, [stroke], [fill],
    [begin], [end], [point], [centerRect], [setLineColor] and
    [setLineWidth] leave the plotter exactly as it was; [move], [hmove],
    [vmove], [home], [line], [hline], [vline] and [start] (and [center] and
    [roundRect] when a canvas element exists) have already stored the new
    pen position in [lastPoint] when they throw, the fields [origin], [id],
    [isDrawing], [canvas] and [context] being unchanged. *)
Theorem failed_lookup_drawing_throws (g : Globals) (w : World) (o : op) :
  Plot.context (this w) = None ->
  drawing o = true ->
  let w' := after (run g o) w in
  outcome (run g o) w = Throw TypeError /\
  calls w' = calls w /\
  match pen_before_context o w with
  | Some p =>
      Plot.lastPoint (this w') = length (points w) /\ pen w' = p /\
      ext false w w'
  | None => w' = w
  end.
Proof.
  intros Hc Hd w'.
  assert (Hext : ext false w w' \/ calls_end o = true).
  { destruct (calls_end o) eqn:E; [now right | left].
    pose proof (ext_run g o w) as H. now rewrite E in H. }
  subst w'. unfold outcome, after in *.
  destruct w as [[lp og i d cv cx rc] ps cs]; cbn in Hc; subst cx.
  destruct o; try discriminate Hd; cbn [pen_before_context];
    try (split; [reflexivity|]; split; reflexivity).
  all: try destruct absolute.
  all: try destruct cv as [e|];
    try (split; [reflexivity|]; split; reflexivity).
  all: (split; [reflexivity|]; split; [reflexivity|]; split; [reflexivity|];
        split; [apply deref_alloc|]).
  all: destruct Hext as [Hext | Hext]; try discriminate Hext; try exact Hext.
  (* roundRect, on an element without a context *)
  unfold ext; cbn.
  repeat (split; [reflexivity|]).
  split; [eauto|]. split; [exists []; now rewrite app_nil_r|].
  split; [|now left].
  intros _. rewrite length_app; cbn; lia.
Qed.

Lemma failed_lookup_drawing_throws_witness :
  Plot.context (this orphan) = None /\
  drawing (Omove (of_Z 5) (of_Z 7) false) = true /\
  outcome (run plot_js_globals (Omove (of_Z 5) (of_Z 7) false)) orphan =
  Throw TypeError.
Proof.
  split; [reflexivity|]. split; [reflexivity|].
  exact (proj1 (failed_lookup_drawing_throws plot_js_globals orphan
                  (Omove (of_Z 5) (of_Z 7) false) eq_refl eq_refl)).
Defined.

Lemma truthy_nonzero (q : Qc) : q <> Qc_of_Z 0 -> truthy (Fin q) = true.
Proof.
  intros Hq. unfold truthy.
  destruct (Z.eqb_spec (Qnum q) 0) as [E|E]; [|reflexivity].
  exfalso. apply Hq. apply Qc_is_canon. unfold Qeq. cbn. now rewrite E.
Qed.

(** ** [roundRect] *)

(** The registry after [roundRect], on a plotter with a canvas element;
    whether the path that follows is drawn or throws. *)
Lemma roundRect_rects (w : World) (width height radius : num)
    (x y : option num) (id : string) (e : Element.t) :
  Plot.canvas (this w) = Some e ->
  Plot.rects (this (after (roundRect width height radius x y id) w)) =
  Some (<[id := descriptor e width height radius x y]> (registry w)).
Proof.
  intros He.
  unfold roundRect, after, bind at 1, getCenter, bind at 1, the_canvas.
  rewrite He. cbn [ret fst snd Point.x Point.y].
  unfold bind at 1, read. unfold bind at 1, write, modify.
  match goal with
  | |- Plot.rects (this (snd (?m ?w1))) = _ =>
      pose proof (same_rects_path width height radius
                    (or_num x (nhalf (prop_number (Element.width e))
                               - nhalf width + radius))
                    (or_num y (nhalf (prop_number (Element.height e))
                               - nhalf height)) w1) as H
  end.
  unfold same_rects, after in H. rewrite H. reflexivity.
Qed.

Lemma roundRect_canvas (w : World) (width height radius : num)
    (x y : option num) (id : string) :
  Plot.canvas (this (after (roundRect width height radius x y id) w)) =
  Plot.canvas (this w).
Proof.
  now destruct (ext_run plot_js_globals
                  (OroundRect width height radius x y id) w)
    as (_ & _ & Hc & _).
Qed.

Lemma box1_descriptor (e : Element.t) :
  descriptor e (of_Z 100) (of_Z 50) (of_Z 10) None None =
  Rect.mk (of_Z 100) (of_Z 50) (of_Z 10)
    (nhalf (prop_number (Element.width e)) - of_Z 40)
    (nhalf (prop_number (Element.height e)) - of_Z 25).
Proof.
  unfold descriptor, or_num.
  generalize (nhalf (prop_number (Element.width e))) as cx.
  generalize (nhalf (prop_number (Element.height e))) as cy.
  intros cy cx. f_equal; num_eq.
Qed.

(** C6.  On a plotter with a canvas element [e], whose midpoint is
    [(cx, cy) = (e.width/2, e.height/2)] at the time of the call,
    [roundRect(width, height, radius, x, y, id)] leaves in the registry,
    under the key [id], the descriptor [{width, height, radius, x, y}] in
    which an omitted [x] is [cx - width/2 + radius] and an omitted [y] is
    [cy - height/2], and a supplied non-zero [x] or [y] is the one
    recorded; the other keys keep their entries; a second call with the
    same [id] replaces the entry.  In particular
    [roundRect(100, 50, 10, undefined, undefined, "box1")] stores
    [{width: 100, height: 50, radius: 10, x: cx - 40, y: cy - 25}]. *)
Theorem roundRect_records_descriptor (w : World) (e : Element.t)
    (width height radius : num) (x y : option num) (id : string) :
  Plot.canvas (this w) = Some e ->
  let cx := nhalf (prop_number (Element.width e)) in
  let cy := nhalf (prop_number (Element.height e)) in
  let w' := after (roundRect width height radius x y id) w in
  let recorded x y :=
    registry (after (roundRect width height radius x y id) w) !! id in
  registry w' !! id = Some (descriptor e width height radius x y) /\
  descriptor e width height radius None None =
    Rect.mk width height radius (cx - nhalf width + radius)
      (cy - nhalf height) /\
  (forall k, k <> id -> registry w' !! k = registry w !! k) /\
  (forall width2 height2 radius2 x2 y2,
     registry (after (roundRect width2 height2 radius2 x2 y2 id) w') !! id =
     Some (descriptor e width2 height2 radius2 x2 y2)) /\
  registry (after (roundRect (of_Z 100) (of_Z 50) (of_Z 10) None None "box1")
              w) !! "box1" =
  Some (Rect.mk (of_Z 100) (of_Z 50) (of_Z 10) (cx - of_Z 40) (cy - of_Z 25))
  /\
  recorded None None =
  Some (Rect.mk width height radius (cx - nhalf width + radius)
          (cy - nhalf height)) /\
  (forall xq yq : Qc,
     xq <> Qc_of_Z 0 -> yq <> Qc_of_Z 0 ->
     recorded (Some (Fin xq)) (Some (Fin yq)) =
     Some (Rect.mk width height radius (Fin xq) (Fin yq)) /\
     recorded (Some (Fin xq)) None =
     Some (Rect.mk width height radius (Fin xq) (cy - nhalf height)) /\
     recorded None (Some (Fin yq)) =
     Some (Rect.mk width height radius (cx - nhalf width + radius)
             (Fin yq))) /\
  (forall (xq yq : Qc) (width2 height2 radius2 : num),
     xq <> Qc_of_Z 0 -> yq <> Qc_of_Z 0 ->
     registry
       (after (roundRect width2 height2 radius2 (Some (Fin xq))
                 (Some (Fin yq)) id) w') !! id =
     Some (Rect.mk width2 height2 radius2 (Fin xq) (Fin yq))).
Proof.
  intros He cx cy w' recorded.
  assert (Hreg : forall a b c p q i v,
             Plot.canvas (this v) = Some e ->
             registry (after (roundRect a b c p q i) v) =
             <[i := descriptor e a b c p q]> (registry v)).
  { intros a b c p q i v Hv. unfold registry at 1.
    now rewrite (roundRect_rects v a b c p q i e Hv). }
  assert (He' : Plot.canvas (this w') = Some e)
    by (unfold w'; now rewrite roundRect_canvas).
  split; [|split; [|split; [|split; [|split; [|split; [|split]]]]]].
  - unfold w'. rewrite (Hreg _ _ _ _ _ _ _ He). apply lookup_insert_eq.
  - reflexivity.
  - intros k Hk. unfold w'. rewrite (Hreg _ _ _ _ _ _ _ He).
    now apply lookup_insert_ne.
  - intros width2 height2 radius2 x2 y2.
    rewrite Hreg; [apply lookup_insert_eq | exact He'].
  - rewrite (Hreg _ _ _ _ _ _ _ He), lookup_insert_eq.
    f_equal. apply box1_descriptor.
  - unfold recorded. now rewrite (Hreg _ _ _ _ _ _ _ He), lookup_insert_eq.
  - intros xq yq Hx Hy. unfold recorded.
    rewrite !(Hreg _ _ _ _ _ _ _ He), !lookup_insert_eq.
    unfold descriptor, or_num.
    now rewrite (truthy_nonzero xq Hx), (truthy_nonzero yq Hy).
  - intros xq yq width2 height2 radius2 Hx Hy.
    rewrite (Hreg _ _ _ _ _ _ _ He'), lookup_insert_eq.
    unfold descriptor, or_num.
    now rewrite (truthy_nonzero xq Hx), (truthy_nonzero yq Hy).
Qed.

(** On the 200 by 100 canvas the midpoint is [(100, 50)]. *)
Lemma roundRect_records_descriptor_witness :
  Plot.canvas (this plot0) = Some canvas_200x100 /\
  registry (after (roundRect (of_Z 100) (of_Z 50) (of_Z 10) None None "box1")
              plot0) !! "box1" =
  Some (Rect.mk (of_Z 100) (of_Z 50) (of_Z 10)
          (nhalf (of_Z 200) - of_Z 40) (nhalf (of_Z 100) - of_Z 25)) /\
  registry (after (roundRect (of_Z 100) (of_Z 50) (of_Z 10)
                     (Some (of_Z 30)) (Some (of_Z 20)) "box1")
              plot0) !! "box1" =
  Some (Rect.mk (of_Z 100) (of_Z 50) (of_Z 10) (of_Z 30) (of_Z 20)).
Proof.
  pose proof (roundRect_records_descriptor plot0 canvas_200x100
                (of_Z 100) (of_Z 50) (of_Z 10) None None "box1" eq_refl)
    as (_ & _ & _ & _ & Hbox & _ & Hgiven & _).
  split; [reflexivity|]. split; [exact Hbox|].
  refine (proj1 (Hgiven (Qc_of_Z 30) (Qc_of_Z 20) _ _)); discriminate.
Defined.

(** C10.  An explicit [0] for [x], for [y], or for both, is treated by
    [roundRect] exactly as an omitted argument: the two calls are the same
    state transformer.  So, on a plotter with a canvas element,
    [roundRect(w, h, r, 0, 0, id)] records the rectangle at the centred
    defaults, not at [(0, 0)]. *)
Theorem roundRect_zero_is_omitted (width height radius : num)
    (x y : option num) (id : string) :
  roundRect width height radius (Some (of_Z 0)) y id =
  roundRect width height radius None y id /\
  roundRect width height radius x (Some (of_Z 0)) id =
  roundRect width height radius x None id /\
  roundRect width height radius (Some (of_Z 0)) (Some (of_Z 0)) id =
  roundRect width height radius None None id /\
  forall w e,
    Plot.canvas (this w) = Some e ->
    registry (after (roundRect width height radius (Some (of_Z 0))
                       (Some (of_Z 0)) id) w) !! id =
    Some (Rect.mk width height radius
            (nhalf (prop_number (Element.width e)) - nhalf width + radius)
            (nhalf (prop_number (Element.height e)) - nhalf height)).
Proof.
  repeat match goal with |- _ /\ _ => split end; try reflexivity.
  intros w e He. unfold registry at 1.
  rewrite (roundRect_rects w _ _ _ _ _ _ e He).
  apply lookup_insert_eq.
Qed.

Lemma roundRect_zero_is_omitted_witness :
  Plot.canvas (this plot0) = Some canvas_200x100 /\
  registry (after (roundRect (of_Z 100) (of_Z 50) (of_Z 10) (Some (of_Z 0))
                     (Some (of_Z 0)) "box1") plot0) !! "box1" =
  Some (Rect.mk (of_Z 100) (of_Z 50) (of_Z 10)
          (nhalf (of_Z 200) - nhalf (of_Z 100) + of_Z 10)
          (nhalf (of_Z 100) - nhalf (of_Z 50))).
Proof.
  split; [reflexivity|].
  exact (proj2 (proj2 (proj2
           (roundRect_zero_is_omitted (of_Z 100) (of_Z 50) (of_Z 10)
              None None "box1"))) plot0 canvas_200x100 eq_refl).
Defined.

(** * Further properties of the methods *)

(** ** Calls on a working plotter, step by step *)

Lemma ok_unit (m : M unit) (w : World) :
  outcome m w = Ok tt -> m w = (Ok tt, after m w).
Proof.
  unfold outcome, after. destruct (m w) as [r w']; cbn. now intros ->.
Qed.

Lemma ext_context (b : bool) (w w' : World) :
  ext b w w' ->
  Plot.context (this w') = Plot.context (this w) /\
  Plot.canvas (this w') = Plot.canvas (this w).
Proof. intros (_ & _ & Hc & Hx & _). now split. Qed.

Lemma ext_method (g : Globals) (o : op) (w : World) :
  ext true w (after (run g o) w).
Proof.
  pose proof (ext_run g o w) as H.
  destruct (calls_end o); [exact H | now apply ext_weaken].
Qed.

Lemma steps_bind (e : Element.t) (m k : M unit)
    (f g : Point.t -> Point.t) (tr tr' : Point.t -> list Ctx.call) :
  steps e m f tr -> steps e k g tr' ->
  steps e (m ;; k) (fun p => g (f p)) (fun p => tr p ++ tr' (f p))%list.
Proof.
  intros Hm Hk w Hc He.
  destruct (Hm w Hc He) as (Ho & Hp & Ht & Hx).
  destruct (ext_context _ _ _ Hx) as [Hc' He'].
  rewrite Hc in Hc'. rewrite He in He'.
  destruct (Hk (after m w) Hc' He') as (Ho' & Hp' & Ht' & Hx').
  assert (E : (m ;; k) w = k (after m w))
    by (unfold bind; now rewrite (ok_unit m w Ho)).
  unfold outcome, after in *. rewrite E.
  split; [exact Ho'|]. split; [now rewrite Hp', Hp|].
  split; [now rewrite Ht', Ht, Hp, app_assoc|].
  eapply ext_trans; eassumption.
Qed.

(** A method that sends [cs] and touches nothing else. *)
Lemma steps_emit (e : Element.t) (m : M unit) (cs : list Ctx.call)
    (g : Globals) (o : op) :
  m = run g o ->
  (forall w c, Plot.context (this w) = Some c ->
     m w = (Ok tt, mkWorld (this w) (points w) (calls w ++ cs))) ->
  steps e m (fun p => p) (fun _ => cs).
Proof.
  intros Hrun H w Hc He. unfold outcome, after.
  pose proof (ext_method g o w) as Hx. rewrite <- Hrun in Hx.
  unfold after in Hx. rewrite (H w _ Hc) in *.
  repeat split; assumption || reflexivity || apply Hx.
Qed.

Lemma steps_begin e : steps e begin (fun p => p) (fun _ => [Ctx.beginPath]).
Proof.
  apply (steps_emit e _ _ plot_js_globals Obegin); [reflexivity|].
  intros w c Hc. unfold begin, bind, the_context, emit, modify.
  now rewrite Hc.
Qed.

Lemma end_eq (closePath : bool) (w : World) (c : Context) :
  Plot.context (this w) = Some c ->
  end_ closePath w =
  (Ok tt,
   mkWorld (Plot.set_isDrawing false (this w)) (points w)
     (calls w ++ Ctx.stroke :: if closePath then [Ctx.closePath] else [])).
Proof.
  intros Hc. destruct w as [[lp og i d cv cx rc] ps cs]; cbn in Hc; subst cx.
  destruct closePath, d; cbn; rewrite <- ?app_assoc; reflexivity.
Qed.

Lemma steps_end e (closePath : bool) :
  steps e (end_ closePath) (fun p => p)
    (fun _ => Ctx.stroke :: if closePath then [Ctx.closePath] else []).
Proof.
  intros w Hc He. unfold outcome, after.
  pose proof (ext_method plot_js_globals (Oend closePath) w) as Hx.
  unfold after in Hx; cbn [run] in Hx.
  rewrite (end_eq closePath w _ Hc) in *.
  repeat split; assumption || reflexivity || apply Hx.
Qed.

Lemma steps_move_rel e (dx dy : num) :
  steps e (move dx dy false) (shift dx dy)
    (fun p => [Ctx.moveTo (dx + Point.x p) (dy + Point.y p)]).
Proof.
  intros w Hc He. unfold outcome, after.
  pose proof (ext_method plot_js_globals (Omove dx dy false) w) as Hx.
  unfold after in Hx; cbn [run] in Hx.
  rewrite move_eq, Hc in *. cbn zeta in *. cbn [fst snd calls].
  split; [reflexivity|]. split; [|split; [reflexivity | exact Hx]].
  destruct w; apply deref_alloc.
Qed.

Lemma steps_move_abs e (x y : num) :
  steps e (move x y true) (fun _ => Point.mk x y)
    (fun _ => [Ctx.moveTo x y]).
Proof.
  intros w Hc He. unfold outcome, after.
  pose proof (ext_method plot_js_globals (Omove x y true) w) as Hx.
  unfold after in Hx; cbn [run] in Hx.
  rewrite move_eq, Hc in *. cbn zeta in *. cbn [fst snd calls].
  split; [reflexivity|]. split; [|split; [reflexivity | exact Hx]].
  destruct w; apply deref_alloc.
Qed.

Lemma steps_line e (dx dy : num) :
  steps e (line dx dy) (shift dx dy)
    (fun p => [Ctx.lineTo (dx + Point.x p) (dy + Point.y p)]).
Proof.
  intros w Hc He. unfold outcome, after.
  pose proof (ext_method plot_js_globals (Oline dx dy) w) as Hx.
  unfold after in Hx; cbn [run] in Hx.
  rewrite line_eq, Hc in *. cbn zeta in *. cbn [fst snd calls].
  split; [reflexivity|]. split; [|split; [reflexivity | exact Hx]].
  destruct w; apply deref_alloc.
Qed.

Lemma steps_start e :
  steps e start (fun p => p)
    (fun p => [Ctx.moveTo (Point.x p) (Point.y p); Ctx.beginPath]).
Proof.
  intros w Hc He. unfold outcome, after.
  pose proof (ext_method plot_js_globals Ostart w) as Hx.
  unfold after in Hx; cbn [run] in Hx.
  rewrite start_eq, Hc in *. cbn zeta in *. cbn [fst snd calls].
  split; [reflexivity|]. split; [|split; [reflexivity | exact Hx]].
  destruct w; apply deref_alloc.
Qed.


Lemma keeps_ext_corner (curve : Point.t -> Ctx.call) (dx dy : num) :
  keeps (ext true) (corner curve dx dy).
Proof.
  unfold corner.
  apply keeps_bind; [apply ext_trans | | intros p].
  { apply keeps_read_pen; [apply ext_refl | apply ext_trans]. }
  apply keeps_bind; [apply ext_trans | | intros c].
  { apply keeps_the_context, ext_refl. }
  apply keeps_bind; [apply ext_trans | apply ext_emit | intros _].
  apply keeps_move;
    [apply ext_refl | apply ext_trans | apply ext_emit
    | apply ext_updateLastPoint].
Qed.

Lemma steps_corner e (curve : Point.t -> Ctx.call) (dx dy : num) :
  steps e (corner curve dx dy) (shift dx dy)
    (fun p => [curve p; Ctx.moveTo (dx + Point.x p) (dy + Point.y p)]).
Proof.
  intros w Hc He. unfold outcome.
  pose proof (keeps_ext_corner curve dx dy w) as Hx.
  unfold after in *.
  rewrite (corner_eq _ _ _ _ _ Hc) in *. cbn [fst snd calls].
  split; [reflexivity|]. split; [|split; [reflexivity | exact Hx]].
  destruct w; apply deref_alloc.
Qed.

Lemma steps_ext (e : Element.t) (m : M unit) (f f' : Point.t -> Point.t)
    (tr tr' : Point.t -> list Ctx.call) :
  (forall p, f p = f' p) -> (forall p, tr p = tr' p) ->
  steps e m f tr -> steps e m f' tr'.
Proof.
  intros Hf Ht H w Hc He. destruct (H w Hc He) as (? & ? & ? & ?).
  rewrite <- Hf, <- Ht. auto.
Qed.

(** Splits an equation between traces into equations between numbers. *)
Ltac trace_eq :=
  repeat match goal with
    | |- _ :: _ = _ :: _ => f_equal
    | |- Ctx.moveTo _ _ = Ctx.moveTo _ _ => f_equal
    | |- Ctx.lineTo _ _ = Ctx.lineTo _ _ => f_equal
    | |- Ctx.arcTo _ _ _ _ _ = Ctx.arcTo _ _ _ _ _ => f_equal
    | |- Ctx.quadraticCurveTo _ _ _ _ = Ctx.quadraticCurveTo _ _ _ _ =>
        f_equal
    | |- Point.mk _ _ = Point.mk _ _ => f_equal
    end.

(** [num_eq], taking cases only on the numbers the goal mentions. *)
Ltac num_eq_goal :=
  repeat match goal with
    | n : num |- ?G =>
        match G with context [n] => destruct n end
    end;
  unfold nadd, nsub, nneg, nmul, nhalf, of_Z;
  try reflexivity; f_equal; qc_field.

(** ** The outline drawn by [roundRect] *)

(** The eight helpers, as steps. *)
Lemma steps_corners (e : Element.t) (r : num) :
  steps e (ne r) (shift r (- r))
    (fun p => [Ctx.quadraticCurveTo
                 (Point.x p) (Point.y p - r) (Point.x p + r) (Point.y p - r);
               Ctx.moveTo (r + Point.x p) ((- r) + Point.y p)]) /\
  steps e (se r) (shift r r)
    (fun p => [Ctx.quadraticCurveTo
                 (Point.x p) (Point.y p + r) (Point.x p + r) (Point.y p + r);
               Ctx.moveTo (r + Point.x p) (r + Point.y p)]) /\
  steps e (nw r) (shift (- r) (- r))
    (fun p => [Ctx.quadraticCurveTo
                 (Point.x p) (Point.y p - r) (Point.x p - r) (Point.y p - r);
               Ctx.moveTo ((- r) + Point.x p) ((- r) + Point.y p)]) /\
  steps e (sw r) (shift (- r) r)
    (fun p => [Ctx.quadraticCurveTo
                 (Point.x p) (Point.y p + r) (Point.x p - r) (Point.y p + r);
               Ctx.moveTo ((- r) + Point.x p) (r + Point.y p)]) /\
  steps e (wn r) (shift (- r) (- r))
    (fun p => [Ctx.quadraticCurveTo
                 (Point.x p - r) (Point.y p) (Point.x p - r) (Point.y p - r);
               Ctx.moveTo ((- r) + Point.x p) ((- r) + Point.y p)]) /\
  steps e (ws r) (shift (- r) r)
    (fun p => [Ctx.quadraticCurveTo
                 (Point.x p - r) (Point.y p) (Point.x p - r) (Point.y p + r);
               Ctx.moveTo ((- r) + Point.x p) (r + Point.y p)]) /\
  steps e (en r) (shift r (- r))
    (fun p => [Ctx.quadraticCurveTo
                 (Point.x p + r) (Point.y p) (Point.x p + r) (Point.y p - r);
               Ctx.moveTo (r + Point.x p) ((- r) + Point.y p)]) /\
  steps e (es r) (shift r r)
    (fun p => [Ctx.quadraticCurveTo
                 (Point.x p + r) (Point.y p) (Point.x p + r) (Point.y p + r);
               Ctx.moveTo (r + Point.x p) (r + Point.y p)]).
Proof.
  repeat match goal with |- _ /\ _ => split end;
    match goal with
    | |- steps _ _ (shift ?dx ?dy) (fun p => [@?c p; _]) =>
        exact (steps_corner e c dx dy)
    end.
Qed.

Lemma roundRect_path_steps (e : Element.t) (width height radius x y : num) :
  steps e (roundRect_path width height radius x y)
    (fun _ => snd (outline x y width height radius))
    (fun p =>
       [Ctx.moveTo (Point.x p) (Point.y p); Ctx.beginPath] ++
       fst (outline x y width height radius) ++ [Ctx.stroke])%list.
Proof.
  destruct (steps_corners e radius)
    as (Hne & Hse & Hnw & Hsw & Hwn & Hws & Hen & Hes).
  eapply steps_ext.
  3: { unfold roundRect_path, hline, vline.
       repeat (eapply steps_bind;
               [ first [ apply steps_start | apply steps_move_abs
                       | apply steps_line | exact Hes | exact Hsw
                       | exact Hwn | exact Hne ] | ]).
       apply steps_end. }
  - intros p. unfold shift, outline; cbn [Point.x Point.y snd].
    trace_eq; num_eq_goal.
  - intros [px py]. unfold shift, outline; cbn [Point.x Point.y app fst].
    trace_eq; num_eq_goal.
Qed.

(** [roundRect] on a plotter with a canvas: the midpoint is read, the
    rectangle recorded, and the path drawn from the state so obtained. *)
Lemma roundRect_unfold (w : World) (width height radius : num)
    (x y : option num) (id : string) (e : Element.t) :
  Plot.canvas (this w) = Some e ->
  let d := descriptor e width height radius x y in
  roundRect width height radius x y id w =
  roundRect_path width height radius (Rect.x d) (Rect.y d)
    (mkWorld (Plot.set_rects (<[id := d]> (registry w)) (this w))
       (points w) (calls w)).
Proof.
  intros He d.
  unfold roundRect, bind at 1, getCenter, bind at 1, the_canvas.
  rewrite He. cbn [ret fst snd Point.x Point.y].
  unfold bind at 1, read. unfold bind at 1, write, modify.
  reflexivity.
Qed.

(** X1.  On a plotter with a canvas and a context, [roundRect] returns
    normally, and what the surface receives is: a [moveTo] to the pen,
    [beginPath], the thirteen calls of the outline that starts at the
    [(x, y)] recorded in the registry, for the given width, height and
    radius (a [moveTo] there, then for each side a [lineTo] to its end, a
    quadratic curve through the corner and a [moveTo] to the end of the
    curve), then [stroke]; no [closePath] and no [fill].  Each position is
    computed from the one before, and the pen ends at the end of the last
    curve. *)
Theorem roundRect_draws_outline (w : World) (e : Element.t)
    (width height radius : num) (x y : option num) (id : string) :
  Plot.context (this w) = Some Context2D ->
  Plot.canvas (this w) = Some e ->
  let m := roundRect width height radius x y id in
  exists rx ry,
    registry (after m w) !! id = Some (Rect.mk width height radius rx ry) /\
    outcome m w = Ok tt /\
    calls (after m w) =
    (calls w ++
     [Ctx.moveTo (Point.x (pen w)) (Point.y (pen w)); Ctx.beginPath] ++
     fst (outline rx ry width height radius) ++ [Ctx.stroke])%list /\
    pen (after m w) = snd (outline rx ry width height radius).
Proof.
  intros Hc He m.
  set (d := descriptor e width height radius x y).
  exists (Rect.x d), (Rect.y d). split.
  - assert (Hreg : registry (after m w) = <[id := d]> (registry w)).
    { unfold m, registry at 1.
      now rewrite (roundRect_rects w _ _ _ x y id e He). }
    rewrite Hreg, lookup_insert_eq. reflexivity.
  - unfold m, outcome, after.
    rewrite (roundRect_unfold w _ _ _ x y id e He). fold d.
    destruct (roundRect_path_steps e width height radius (Rect.x d)
                (Rect.y d)
                (mkWorld (Plot.set_rects (<[id := d]> (registry w)) (this w))
                   (points w) (calls w)) Hc He)
      as (Ho & Hp & Ht & _).
    unfold outcome, after in *. auto.
Qed.

Lemma roundRect_draws_outline_witness :
  Plot.context (this plot0) = Some Context2D /\
  Plot.canvas (this plot0) = Some canvas_200x100 /\
  outcome (roundRect (of_Z 100) (of_Z 50) (of_Z 10) None None "box1") plot0 =
  Ok tt.
Proof.
  split; [reflexivity|]. split; [reflexivity|].
  destruct (roundRect_draws_outline plot0 canvas_200x100
              (of_Z 100) (of_Z 50) (of_Z 10) None None "box1"
              eq_refl eq_refl) as (rx & ry & _ & Ho & _).
  exact Ho.
Defined.

(** ** The surface follows the pen *)





(** ** Relative moves *)

Lemma steps_pen (e : Element.t) (m : M unit) (f : Point.t -> Point.t)
    (tr : Point.t -> list Ctx.call) (w : World) :
  steps e m f tr ->
  Plot.context (this w) = Some Context2D ->
  Plot.canvas (this w) = Some e ->
  pen (after m w) = f (pen w).
Proof. intros H Hc He. now destruct (H w Hc He) as (_ & Hp & _). Qed.

(** X3.  On a plotter with a canvas and a context, chained relative calls
    accumulate in the order they are made: after [move(a, b)] the pen is
    at [p1 = pen + (a, b)], and a following [move(c, d)] or [line(c, d)]
    takes it to [p2 = p1 + (c, d)]; the surface is sent to [p1] and then
    to [p2], by [moveTo] for a move and [lineTo] for a line. *)
Theorem relative_calls_accumulate (w : World) (e : Element.t)
    (a b c d : num) :
  Plot.context (this w) = Some Context2D ->
  Plot.canvas (this w) = Some e ->
  let p1 := Point.mk (Point.x (pen w) + a) (Point.y (pen w) + b) in
  let p2 := Point.mk (Point.x p1 + c) (Point.y p1 + d) in
  let to p := Ctx.moveTo (Point.x p) (Point.y p) in
  let segment p := Ctx.lineTo (Point.x p) (Point.y p) in
  pen (after (move a b false ;; move c d false) w) = p2 /\
  calls (after (move a b false ;; move c d false) w) =
  (calls w ++ [to p1; to p2])%list /\
  pen (after (move a b false ;; line c d) w) = p2 /\
  calls (after (move a b false ;; line c d) w) =
  (calls w ++ [to p1; segment p2])%list /\
  pen (after (line a b ;; line c d) w) = p2 /\
  calls (after (line a b ;; line c d) w) =
  (calls w ++ [segment p1; segment p2])%list.
Proof.
  intros Hc He.
  destruct (steps_bind e _ _ _ _ _ _ (steps_move_rel e a b)
              (steps_move_rel e c d) w Hc He) as (_ & -> & -> & _).
  destruct (steps_bind e _ _ _ _ _ _ (steps_move_rel e a b)
              (steps_line e c d) w Hc He) as (_ & -> & -> & _).
  destruct (steps_bind e _ _ _ _ _ _ (steps_line e a b)
              (steps_line e c d) w Hc He) as (_ & -> & -> & _).
  destruct (pen w) as [px py]. unfold shift; cbn [Point.x Point.y app].
  repeat match goal with |- _ /\ _ => split end;
    try (f_equal; []); trace_eq; num_eq_goal.
Qed.

Lemma relative_calls_accumulate_witness :
  Plot.context (this plot57) = Some Context2D /\
  Plot.canvas (this plot57) = Some canvas_200x100 /\
  pen (after (move (of_Z 1) (of_Z 2) false ;; line (of_Z 3) (of_Z 4))
         plot57) =
  Point.mk (Point.x (pen plot57) + of_Z 1 + of_Z 3)
           (Point.y (pen plot57) + of_Z 2 + of_Z 4).
Proof.
  split; [reflexivity|]. split; [reflexivity|].
  exact (proj1 (proj2 (proj2
           (relative_calls_accumulate plot57 canvas_200x100 (of_Z 1) (of_Z 2)
              (of_Z 3) (of_Z 4) eq_refl eq_refl)))).
Defined.

(** The state [line] leaves, whether it returns or throws. *)
Lemma line_after (x y : num) (w : World) :
  exists cs,
    after (line x y) w =
    mkWorld (Plot.set_lastPoint (length (points w)) (this w))
      (points w ++ [shift x y (pen w)]) cs.
Proof.
  unfold after. rewrite line_eq. cbn zeta.
  destruct (Plot.context (this w)); cbn [snd]; eauto.
Qed.

Lemma pen_alloc (w : World) (p : Point.t) (cs : list Ctx.call) :
  pen (mkWorld (Plot.set_lastPoint (length (points w)) (this w))
         (points w ++ [p]) cs) = p.
Proof. destruct w. apply deref_alloc. Qed.

(** X4.  In every state, [hmove] and [hline] change only the x coordinate
    of the pen, by their argument, and [vmove] and [vline] only the y
    coordinate; this also when the context is missing and the call throws
    after the update. *)
Theorem axis_helpers_keep_the_other_axis (w : World) (v : num) :
  let p := pen w in
  pen (after (hmove v) w) = Point.mk (Point.x p + v) (Point.y p) /\
  pen (after (hline v) w) = Point.mk (Point.x p + v) (Point.y p) /\
  pen (after (vmove v) w) = Point.mk (Point.x p) (Point.y p + v) /\
  pen (after (vline v) w) = Point.mk (Point.x p) (Point.y p + v).
Proof.
  cbn zeta. unfold hmove, vmove, hline, vline.
  destruct (move_after v (of_Z 0) false w) as [c1 ->].
  destruct (move_after (of_Z 0) v false w) as [c2 ->].
  destruct (line_after v (of_Z 0) w) as [c3 ->].
  destruct (line_after (of_Z 0) v w) as [c4 ->].
  rewrite !pen_alloc.
  destruct (pen w) as [px py].
  unfold shift; cbn [Point.x Point.y].
  repeat match goal with |- _ /\ _ => split end; trace_eq; num_eq_goal.
Qed.

(** ** Which calls return *)

Section Succeeds.
Variable e : Element.t.

Lemma ok_some {A} (m : M A) (w : World) (a : A) :
  outcome m w = Ok a -> m w = (Ok a, after m w).
Proof.
  unfold outcome, after. destruct (m w) as [r w']; cbn. now intros ->.
Qed.

Lemma succeeds_bind {A B} (m : M A) (k : A -> M B) :
  succeeds e m -> (forall a, succeeds e (k a)) -> succeeds e (bind m k).
Proof.
  intros Hm Hk w Hc He.
  destruct (Hm w Hc He) as ([a Ho] & Hc' & He').
  destruct (Hk a (after m w) Hc' He') as (Hb & Hc'' & He'').
  assert (E : bind m k w = k a (after m w))
    by (unfold bind; now rewrite (ok_some m w a Ho)).
  unfold outcome, after in *. now rewrite E.
Qed.

Lemma succeeds_pure {A} (m : M A) :
  (forall w, exists a, m w = (Ok a, w)) -> succeeds e m.
Proof.
  intros H w Hc He. destruct (H w) as [a E].
  unfold outcome, after. rewrite E. eauto.
Qed.

Lemma succeeds_ret {A} (a : A) : succeeds e (ret a).
Proof. apply succeeds_pure. intros w. now exists a. Qed.

Lemma succeeds_read {A} (f : Plot.t -> A) : succeeds e (read f).
Proof. apply succeeds_pure. intros w. now eexists. Qed.

Lemma succeeds_load (r : ref) : succeeds e (load r).
Proof. apply succeeds_pure. intros w. now eexists. Qed.

Lemma succeeds_the_context : succeeds e the_context.
Proof.
  intros w Hc He. unfold outcome, after, the_context. rewrite Hc. eauto.
Qed.

Lemma succeeds_the_canvas : succeeds e the_canvas.
Proof.
  intros w Hc He. unfold outcome, after, the_canvas. rewrite He. eauto.
Qed.

Lemma succeeds_emit (c : Ctx.call) : succeeds e (emit c).
Proof. intros w Hc He. unfold outcome, after; cbn. eauto. Qed.

Lemma succeeds_updateLastPoint x y a : succeeds e (updateLastPoint x y a).
Proof.
  intros w Hc He. unfold outcome, after. rewrite updateLastPoint_eq.
  cbn. eauto.
Qed.

Lemma succeeds_clear : succeeds e (write (Plot.set_isDrawing false)).
Proof. intros w Hc He. unfold outcome, after; cbn. eauto. Qed.

Lemma succeeds_set_rects m : succeeds e (write (Plot.set_rects m)).
Proof. intros w Hc He. unfold outcome, after; cbn. eauto. Qed.

#[local] Hint Resolve succeeds_ret succeeds_read succeeds_load
  succeeds_the_context succeeds_the_canvas succeeds_emit
  succeeds_updateLastPoint succeeds_clear succeeds_set_rects : plot.

(** Walks through a method body, one [bind] at a time. *)
Ltac succeeds_body :=
  repeat first
    [ solve [auto with plot]
    | progress cbv zeta
    | apply succeeds_bind; [|intros]
    | match goal with
      | |- succeeds _ (if ?c then _ else _) => destruct c
      end ].

Lemma succeeds_move x y a : succeeds e (move x y a).
Proof. unfold move. succeeds_body. Qed.

Lemma succeeds_line x y : succeeds e (line x y).
Proof. unfold line. succeeds_body. Qed.

Lemma succeeds_begin : succeeds e begin.
Proof. unfold begin. succeeds_body. Qed.

Lemma succeeds_end c : succeeds e (end_ c).
Proof. unfold end_. succeeds_body. Qed.

Lemma succeeds_read_pen : succeeds e read_pen.
Proof. unfold read_pen. succeeds_body. Qed.

Lemma succeeds_getCenter : succeeds e getCenter.
Proof. unfold getCenter. succeeds_body. Qed.

#[local] Hint Resolve succeeds_move succeeds_line succeeds_begin
  succeeds_end succeeds_read_pen succeeds_getCenter : plot.



End Succeeds.

Lemma handles_step (g : Globals) (o : op) (w : World) :
  Plot.canvas (this (after (run g o) w)) = Plot.canvas (this w) /\
  Plot.context (this (after (run g o) w)) = Plot.context (this w) /\
  Plot.id (this (after (run g o) w)) = Plot.id (this w).
Proof.
  destruct (ext_method g o w) as (_ & Hi & Hc & Hx & _). auto.
Qed.

Lemma handles_run_all (g : Globals) (os : list op) (w : World) :
  Plot.canvas (this (run_all g os w)) = Plot.canvas (this w) /\
  Plot.context (this (run_all g os w)) = Plot.context (this w) /\
  Plot.id (this (run_all g os w)) = Plot.id (this w).
Proof.
  revert w. induction os as [|o os IH]; intros w; [now cbn|].
  cbn [run_all]. destruct (IH (after (run g o) w)) as (-> & -> & ->).
  apply handles_step.
Qed.

(** X5.  The handles never change.  No method call, in any state,
    changes [canvas], [context] or [id].  So after construction and any
    sequence of calls, [canvas] is what the lookup returned at
    construction, [context] is the context that element gave (none if the
    element is missing, is not a canvas, or gave [null]) and [id] is the
    id the plotter was built with; and in every reachable state a plotter
    with a context has its canvas element, the one that gave that
    context. *)
Theorem handles_never_change (g : Globals) :
  (forall o w,
     Plot.canvas (this (after (run g o) w)) = Plot.canvas (this w) /\
     Plot.context (this (after (run g o) w)) = Plot.context (this w) /\
     Plot.id (this (after (run g o) w)) = Plot.id (this w)) /\
  (forall document id lineColor lineWidth os,
     let w := run_all g os (new_Plot document id lineColor lineWidth) in
     Plot.canvas (this w) = document id /\
     Plot.context (this w) = context_of (document id) /\
     Plot.id (this w) = id) /\
  (forall w, reachable g w ->
     Plot.context (this w) = context_of (Plot.canvas (this w)) /\
     forall c, Plot.context (this w) = Some c ->
       exists e, Plot.canvas (this w) = Some e /\
                 Element.getContext e = Some (Some c)).
Proof.
  split; [apply handles_step|]. split.
  - intros document id lineColor lineWidth os w. unfold w.
    destruct (handles_run_all g os
                (new_Plot document id lineColor lineWidth))
      as (-> & -> & ->).
    repeat split.
  - intros w Hw.
    assert (H : Plot.context (this w) = context_of (Plot.canvas (this w))).
    { induction Hw as [document id lineColor lineWidth | w o Hw IH].
      - reflexivity.
      - destruct (handles_step g o w) as (-> & -> & _). exact IH. }
    split; [exact H|]. intros c Hc. rewrite Hc in H.
    unfold context_of in H.
    destruct (Plot.canvas (this w)) as [e|]; [|discriminate].
    exists e. split; [reflexivity|].
    destruct (Element.getContext e) as [c'|]; [|discriminate].
    now rewrite H.
Qed.

Lemma handles_never_change_witness :
  reachable plot_js_globals plot57 /\
  Plot.context (this plot57) = context_of (Plot.canvas (this plot57)) /\
  Plot.canvas
    (this (run_all plot_js_globals
             [Omove (of_Z 5) (of_Z 7) false; Oreset; Opoint]
             (new_Plot page "plot" None None))) = page "plot".
Proof.
  assert (Hw : reachable plot_js_globals plot57)
    by (apply (reach_call plot_js_globals plot0
                 (Omove (of_Z 5) (of_Z 7) false)), reach_new).
  pose proof (handles_never_change plot_js_globals) as (_ & Hall & Hreach).
  split; [exact Hw|]. split.
  - exact (proj1 (Hreach plot57 Hw)).
  - exact (proj1 (Hall page "plot" None None
                    [Omove (of_Z 5) (of_Z 7) false; Oreset; Opoint])).
Defined.




(** Without an element, no method sends anything. *)
Lemma silent_step (g : Globals) (o : op) (w : World) :
  Plot.canvas (this w) = None ->
  Plot.context (this w) = None ->
  calls (after (run g o) w) = calls w.
Proof.
  intros He Hc. unfold after.
  destruct w as [[lp og i d cv cx rc] ps cs]; cbn in He, Hc; subst cv cx.
  destruct o; try reflexivity.
  all: try destruct absolute; reflexivity.
Qed.

(** X7.  When the lookup finds no element, nothing is ever sent to a
    surface: in every state reachable from such a construction the
    context is unset and the trace of calls is empty. *)
Theorem no_element_no_calls (g : Globals) (w : World) :
  reachable g w ->
  Plot.canvas (this w) = None ->
  Plot.context (this w) = None /\ calls w = [].
Proof.
  induction 1 as [document id lineColor lineWidth | w o Hw IH]; intros He.
  - unfold new_Plot in *; cbn in *. now rewrite He.
  - destruct (ext_context _ _ _ (ext_method g o w)) as [Ec Ee].
    rewrite Ee in He. destruct (IH He) as [Hc Hs].
    split; [now rewrite Ec|].
    now rewrite silent_step.
Qed.

Lemma no_element_no_calls_witness :
  let w := after (run plot_js_globals (Oline (of_Z 3) (of_Z 4)))
             (after (run plot_js_globals Oreset) orphan) in
  reachable plot_js_globals w /\ Plot.canvas (this w) = None /\
  calls w = [].
Proof.
  intros w.
  assert (Hw : reachable plot_js_globals w)
    by (unfold w, orphan; do 2 apply reach_call; apply reach_new).
  split; [exact Hw|]. split; [reflexivity|].
  exact (proj2 (no_element_no_calls plot_js_globals w Hw eq_refl)).
Defined.

(** ** The store of point objects *)

(** X8.  No method ever modifies a point object or redirects [origin]:
    after any call, in any state, [origin] is the same reference, every
    point object that existed holds what it held, the store is at least as
    long, and the trace has only been extended. *)
Theorem point_objects_are_immutable (g : Globals) (o : op) (w : World) :
  let w' := after (run g o) w in
  Plot.origin (this w') = Plot.origin (this w) /\
  objects_kept w w' /\
  length (points w) <= length (points w') /\
  exists cs, calls w' = (calls w ++ cs)%list.
Proof.
  cbn zeta.
  destruct (ext_method g o w) as (Ho & _ & _ & _ & [ps Hp] & Hs & _).
  split; [exact Ho|]. split; [|split; [|exact Hs]].
  - intros r Hr. unfold deref. rewrite Hp. now rewrite lookup_app_l.
  - rewrite Hp, length_app. lia.
Qed.

Lemma latest_ok_run (g : Globals) (o : op) :
  keeps (fun w w' => latest_ok w -> latest_ok w') (run g o).
Proof.
  apply keeps_run; unfold keeps, after, latest_ok; try tauto.
  - intros x y a w. rewrite updateLastPoint_eq. cbn.
    intros [-> _]. split; [reflexivity|]. rewrite length_app; cbn. lia.
Qed.

(** X9.  In every reachable state [origin] refers to the first point
    object and [lastPoint] to the newest one; so the two fields refer to
    the same object exactly as long as the pen has never been updated. *)
Theorem lastPoint_is_the_newest_object (g : Globals) (w : World) :
  reachable g w ->
  latest_ok w /\
  (Plot.lastPoint (this w) = Plot.origin (this w) <->
   length (points w) = 1).
Proof.
  intros Hw.
  assert (H : latest_ok w).
  { induction Hw as [document id lineColor lineWidth | w o Hw IH].
    - split; reflexivity.
    - now apply (latest_ok_run g o w). }
  split; [exact H|]. destruct H as [-> H]. lia.
Qed.

Lemma lastPoint_is_the_newest_object_witness :
  reachable plot_js_globals plot57 /\ latest_ok plot57.
Proof.
  assert (Hw : reachable plot_js_globals plot57)
    by (apply (reach_call plot_js_globals plot0
                 (Omove (of_Z 5) (of_Z 7) false)), reach_new).
  split; [exact Hw|].
  exact (proj1 (lastPoint_is_the_newest_object plot_js_globals plot57 Hw)).
Defined.

(** ** Methods that leave the pen alone *)

Lemma same_pen_refl (w : World) : same_pen w w.
Proof. now split. Qed.

Lemma same_pen_trans (w1 w2 w3 : World) :
  same_pen w1 w2 -> same_pen w2 w3 -> same_pen w1 w3.
Proof. unfold same_pen. intros [-> ->] [-> ->]. now split. Qed.

Lemma same_pen_emit (c : Ctx.call) : keeps same_pen (emit c).
Proof. intros w. now split. Qed.

Lemma same_pen_clear : keeps same_pen (write (Plot.set_isDrawing false)).
Proof. intros w. now split. Qed.

Lemma same_pen_call (c : Ctx.call) : keeps same_pen (call c).
Proof. apply keeps_call; [apply same_pen_refl | apply same_pen_emit]. Qed.

(** Walks through the body of a method that never updates the pen. *)
Ltac same_pen_body :=
  repeat first
    [ apply same_pen_emit
    | apply same_pen_call
    | apply same_pen_clear
    | apply keeps_ret, same_pen_refl
    | apply keeps_read, same_pen_refl
    | apply keeps_load, same_pen_refl
    | apply keeps_the_context, same_pen_refl
    | apply keeps_the_canvas, same_pen_refl
    | apply keeps_global, same_pen_refl
    | apply keeps_bind; [apply same_pen_trans | | intros]
    | match goal with
      | |- keeps _ (if ?c then _ else _) => destruct c
      end ].

(** X10.  The methods that never call [updateLastPoint] ([stroke],
    [fill], [arc], [centerRect], [setLineColor], [setLineWidth],
    [getCenter], [begin], [end], [reset], [point], [loc]) leave
    [lastPoint] and the whole store of point objects as they were, in every
    state and whether they return or throw. *)
Theorem pen_left_alone (g : Globals) (o : op) (w : World) :
  keeps_pen o = true ->
  same_pen w (after (run g o) w) /\ pen (after (run g o) w) = pen w.
Proof.
  intros Ho.
  assert (H : same_pen w (after (run g o) w)).
  { revert w. fold (keeps same_pen (run g o)).
    destruct o; try discriminate Ho; cbn [run];
      unfold stroke, fill, arc, centerRect, setLineColor, setLineWidth,
        getCenter, begin, end_, reset, point, loc, read_pen, begin;
      same_pen_body. }
  split; [exact H|]. destruct H as [Hl Hp].
  unfold pen, deref. now rewrite Hl, Hp.
Qed.

Lemma pen_left_alone_witness :
  keeps_pen (OcenterRect (of_Z 40) None) = true /\
  pen (after (run plot_js_globals (OcenterRect (of_Z 40) None)) plot57) =
  pen plot57.
Proof.
  split; [reflexivity|].
  exact (proj2 (pen_left_alone plot_js_globals (OcenterRect (of_Z 40) None)
                  plot57 eq_refl)).
Defined.

(** ** The registry of named rectangles *)

Lemma same_rects_refl (w : World) : same_rects w w.
Proof. reflexivity. Qed.

Lemma same_rects_trans (w1 w2 w3 : World) :
  same_rects w1 w2 -> same_rects w2 w3 -> same_rects w1 w3.
Proof. unfold same_rects. congruence. Qed.

Lemma same_rects_emit (c : Ctx.call) : keeps same_rects (emit c).
Proof. intros w. reflexivity. Qed.

Lemma same_rects_update x y a : keeps same_rects (updateLastPoint x y a).
Proof. intros w. unfold after. now rewrite updateLastPoint_eq. Qed.

Lemma same_rects_clear :
  keeps same_rects (write (Plot.set_isDrawing false)).
Proof. intros w. reflexivity. Qed.

Lemma same_rects_point : keeps same_rects point.
Proof.
  unfold point.
  apply keeps_bind; [apply same_rects_trans | | intros _].
  { apply keeps_begin;
      [apply same_rects_refl | apply same_rects_trans
      | apply same_rects_emit]. }
  apply keeps_bind; [apply same_rects_trans | | intros _].
  { apply keeps_the_context, same_rects_refl. }
  apply keeps_bind; [apply same_rects_trans | | intros p].
  { apply keeps_read_pen; [apply same_rects_refl | apply same_rects_trans]. }
  apply keeps_bind; [apply same_rects_trans | apply same_rects_emit
                    | intros _].
  apply keeps_end;
    [apply same_rects_refl | apply same_rects_trans | apply same_rects_emit
    | apply same_rects_clear].
Qed.

(** [roundRect] without a canvas element throws at once. *)
Lemma roundRect_no_canvas (w : World) (width height radius : num)
    (x y : option num) (id : string) :
  Plot.canvas (this w) = None ->
  roundRect width height radius x y id w = (Throw TypeError, w).
Proof.
  intros He.
  unfold roundRect, bind at 1, getCenter, bind at 1, the_canvas.
  now rewrite He.
Qed.

(** X11.  Only [roundRect] writes the registry, and only the entry of the
    [id] it is given: after any other method [rects] is what it was, and
    after [roundRect(.., id)] every other key has the entry it had; this
    in every state and whether the call returns or throws. *)
Theorem only_roundRect_writes_rects (g : Globals) (o : op) (w : World) :
  registry_step o w (after (run g o) w).
Proof.
  destruct (calls_end o) eqn:E.
  - destruct o; try discriminate E; cbn [registry_step run].
    + apply (keeps_end same_rects); auto using same_rects_refl,
        same_rects_emit, same_rects_clear.
      apply same_rects_trans.
    + apply same_rects_point.
    + intros k Hk.
      destruct (Plot.canvas (this w)) as [e|] eqn:He.
      * unfold registry at 1.
        rewrite (roundRect_rects w _ _ _ _ _ _ e He).
        now apply lookup_insert_ne.
      * unfold after. now rewrite roundRect_no_canvas.
  - assert (H : same_rects w (after (run g o) w)).
    { apply (keeps_quiet same_rects); auto using same_rects_refl,
        same_rects_emit, same_rects_update.
      apply same_rects_trans. }
    destruct o; try discriminate E; exact H.
Qed.

(** X12.  [roundRect] records before it draws.  On a plotter that has an
    element but no context, the call throws a [TypeError] and sends
    nothing, yet the rectangle is in the registry afterwards; without an
    element the call throws before recording and the state is unchanged. *)
Theorem roundRect_records_before_drawing (w : World)
    (width height radius : num) (x y : option num) (id : string) :
  Plot.context (this w) = None ->
  let m := roundRect width height radius x y id in
  outcome m w = Throw TypeError /\
  calls (after m w) = calls w /\
  match Plot.canvas (this w) with
  | Some e =>
      registry (after m w) !! id =
      Some (descriptor e width height radius x y)
  | None => after m w = w
  end.
Proof.
  intros Hc m.
  destruct (Plot.canvas (this w)) as [e|] eqn:He.
  - split; [|split].
    + unfold m, outcome. rewrite (roundRect_unfold w _ _ _ x y id e He).
      unfold roundRect_path, bind at 1. rewrite start_eq.
      cbn [this Plot.context Plot.set_rects]. now rewrite Hc.
    + unfold m, after. rewrite (roundRect_unfold w _ _ _ x y id e He).
      unfold roundRect_path, bind at 1. rewrite start_eq.
      cbn [this Plot.context Plot.set_rects]. now rewrite Hc.
    + unfold m, registry at 1.
      rewrite (roundRect_rects w _ _ _ _ _ _ e He).
      apply lookup_insert_eq.
  - unfold m, outcome, after. rewrite roundRect_no_canvas by exact He.
    repeat split.
Qed.

Lemma roundRect_records_before_drawing_witness :
  let m := roundRect (of_Z 100) (of_Z 50) (of_Z 10) None None "box1" in
  Plot.context (this plot_div) = None /\
  outcome m plot_div = Throw TypeError /\
  registry (after m plot_div) !! "box1" =
  Some (descriptor div (of_Z 100) (of_Z 50) (of_Z 10) None None).
Proof.
  intros m.
  pose proof (roundRect_records_before_drawing plot_div (of_Z 100)
                (of_Z 50) (of_Z 10) None None "box1" eq_refl)
    as (Ho & _ & Hr).
  split; [reflexivity|]. split; [exact Ho | exact Hr].
Defined.

(** ** Without a context *)

(** X13.  On a plotter without a context, a call returns normally exactly
    when it does not go through the context: [updateLastPoint] and [loc]
    always return, [getCenter] and [reset] return when the lookup had
    found an element (and throw a [TypeError] otherwise), and every other
    method throws a [TypeError].  In particular [reset] works on an
    element that gave no context, and sends the element its own width. *)
Theorem calls_without_context (g : Globals) (o : op) (w : World) :
  Plot.context (this w) = None ->
  outcome (run g o) w = outcome_without_context o w /\
  forall e, Plot.canvas (this w) = Some e ->
    reset w =
    (Ok tt,
     mkWorld (this w) (points w)
       (calls w ++ [Ctx.canvas_set_width (Element.width e)])).
Proof.
  intros Hc. split.
  - unfold outcome, outcome_without_context.
    destruct w as [[lp og i d cv cx rc] ps cs]; cbn in Hc; subst cx.
    destruct o; cbn [drawing reads_canvas this Plot.canvas];
      try reflexivity.
    all: try destruct absolute; try destruct cv; reflexivity.
  - intros e He. unfold reset, bind, the_canvas, emit, modify.
    now rewrite He.
Qed.

Lemma calls_without_context_witness :
  Plot.context (this plot_div) = None /\
  outcome (run plot_js_globals Oreset) plot_div = Ok tt /\
  outcome (run plot_js_globals Ostroke) plot_div = Throw TypeError.
Proof.
  split; [reflexivity|]. split.
  - exact (proj1 (calls_without_context plot_js_globals Oreset plot_div
                    eq_refl)).
  - exact (proj1 (calls_without_context plot_js_globals Ostroke plot_div
                    eq_refl)).
Defined.

(** ** The midpoint *)

Lemma getCenter_eq (w : World) :
  getCenter w =
  match Plot.canvas (this w) with
  | Some e => (Ok (midpoint e), w)
  | None => (Throw TypeError, w)
  end.
Proof.
  unfold getCenter, bind, the_canvas.
  now destruct (Plot.canvas (this w)).
Qed.

(** X14.  [getCenter] never changes the state.  With an element it
    returns the point [(width/2, height/2)], which is [(NaN, NaN)] for an
    element without those properties, and [center] leaves the pen exactly
    there, also when the context is missing and [center] throws after the
    update; without an element both throw a [TypeError] and [center]
    changes nothing. *)
Theorem center_goes_to_the_midpoint (w : World) :
  after getCenter w = w /\
  midpoint div = Point.mk NaN NaN /\
  match Plot.canvas (this w) with
  | Some e =>
      outcome getCenter w = Ok (midpoint e) /\
      pen (after center w) = midpoint e
  | None =>
      outcome getCenter w = Throw TypeError /\
      center w = (Throw TypeError, w)
  end.
Proof.
  unfold after at 1, outcome. rewrite getCenter_eq.
  split; [now destruct (Plot.canvas (this w))|]. split; [reflexivity|].
  destruct (Plot.canvas (this w)) as [e|] eqn:He.
  - split; [reflexivity|].
    unfold after, center, bind at 1. rewrite getCenter_eq, He.
    destruct (move_after (Point.x (midpoint e)) (Point.y (midpoint e))
                true w) as [cs E].
    unfold after in E. rewrite E, pen_alloc. apply point_eta.
  - split; [reflexivity|].
    unfold center, bind at 1. now rewrite getCenter_eq, He.
Qed.

(** ** [centerRect] *)

Lemma centerRect_eq (wd : num) (h : option num) (w : World)
    (e : Element.t) (c : Context) :
  Plot.context (this w) = Some c ->
  Plot.canvas (this w) = Some e ->
  centerRect wd h w =
  (Ok tt,
   mkWorld (this w) (points w)
     (calls w ++
        [Ctx.strokeRect (Point.x (midpoint e) - nhalf wd)
           (Point.y (midpoint e) - nhalf (or_num h wd)) wd (or_num h wd)])).
Proof.
  intros Hc He. unfold centerRect, bind at 1. rewrite getCenter_eq, He.
  cbv zeta. unfold bind, the_context, emit, modify. now rewrite Hc.
Qed.

(** X15.  On a plotter with a canvas and a context, [centerRect] sends
    one [strokeRect] and changes no field of the plotter and no point
    object.  The rectangle has the given width; its height is the given
    one when that is a non-zero number, and the width when the height is
    omitted, [0] or [NaN] (a square); its corner is at the midpoint of the
    canvas minus half the width and half that height. *)
Theorem centerRect_is_centred (w : World) (e : Element.t) (wd : num)
    (hq : Qc) :
  Plot.context (this w) = Some Context2D ->
  Plot.canvas (this w) = Some e ->
  let cx := nhalf (prop_number (Element.width e)) in
  let cy := nhalf (prop_number (Element.height e)) in
  let sent ht :=
    (Ok tt,
     mkWorld (this w) (points w)
       (calls w ++
          [Ctx.strokeRect (cx - nhalf wd) (cy - nhalf ht) wd ht])) in
  centerRect wd None w = sent wd /\
  centerRect wd (Some (of_Z 0)) w = sent wd /\
  centerRect wd (Some NaN) w = sent wd /\
  centerRect wd (Some wd) w = sent wd /\
  (hq <> Qc_of_Z 0 -> centerRect wd (Some (Fin hq)) w = sent (Fin hq)).
Proof.
  intros Hc He cx cy sent.
  rewrite !(centerRect_eq _ _ w e _ Hc He).
  assert (Hsq : or_num (Some wd) wd = wd)
    by (unfold or_num; now destruct (truthy wd)).
  repeat match goal with |- _ /\ _ => split end; try reflexivity.
  - now rewrite Hsq.
  - intros Hq. unfold or_num. now rewrite truthy_nonzero.
Qed.

Lemma centerRect_is_centred_witness :
  Plot.context (this plot0) = Some Context2D /\
  Plot.canvas (this plot0) = Some canvas_200x100 /\
  Qc_of_Z 20 <> Qc_of_Z 0 /\
  centerRect (of_Z 40) (Some (of_Z 20)) plot0 =
  (Ok tt,
   mkWorld (this plot0) (points plot0)
     (calls plot0 ++
        [Ctx.strokeRect (nhalf (of_Z 200) - nhalf (of_Z 40))
           (nhalf (of_Z 100) - nhalf (of_Z 20)) (of_Z 40) (of_Z 20)])).
Proof.
  assert (Hq : Qc_of_Z 20 <> Qc_of_Z 0) by discriminate.
  split; [reflexivity|]. split; [reflexivity|]. split; [exact Hq|].
  exact (proj2 (proj2 (proj2 (proj2
           (centerRect_is_centred plot0 canvas_200x100 (of_Z 40)
              (Qc_of_Z 20) eq_refl eq_refl)))) Hq).
Defined.

(** ** Ending a path *)

(** X16.  On a plotter with a context, [end(closePath)] sends [stroke]
    and then, only if [closePath] is truthy, [closePath]; [isDrawing] is
    [false] afterwards whatever it was, and nothing else changes.
    [point()] sends [beginPath], one [strokeText] of ["."] at the pen, and
    [stroke], with the same effect on the state. *)
Theorem end_strokes_then_closes (w : World) (closePath : bool) :
  Plot.context (this w) = Some Context2D ->
  let t := Plot.set_isDrawing false (this w) in
  end_ closePath w =
  (Ok tt,
   mkWorld t (points w)
     (calls w ++ Ctx.stroke :: if closePath then [Ctx.closePath] else [])) /\
  point w =
  (Ok tt,
   mkWorld t (points w)
     (calls w ++
        [Ctx.beginPath;
         Ctx.strokeText "." (Point.x (pen w)) (Point.y (pen w));
         Ctx.stroke])).
Proof.
  intros Hc t. split; [now apply (end_eq closePath w Context2D)|].
  unfold point, begin, read_pen, bind, the_context, read, load, emit, modify.
  rewrite Hc. cbn [this points calls].
  rewrite Hc. cbn [this points calls].
  pose proof (end_eq false
                (mkWorld (this w) (points w)
                   (calls w ++ [Ctx.beginPath] ++
                    [Ctx.strokeText "." (Point.x (pen w)) (Point.y (pen w))]))
                _ Hc) as E.
  cbn [this points calls] in E. rewrite app_assoc in E.
  unfold pen in *. cbn [this points] in *.
  unfold deref in *; cbn [points] in *.
  rewrite E. now rewrite <- !app_assoc.
Qed.

Lemma end_strokes_then_closes_witness :
  Plot.context (this plot57) = Some Context2D /\
  calls (after (end_ true) plot57) =
  (calls plot57 ++ [Ctx.stroke; Ctx.closePath])%list.
Proof.
  split; [reflexivity|].
  pose proof (proj1 (end_strokes_then_closes plot57 true eq_refl)) as E.
  unfold after. now rewrite E.
Defined.

(** ** Construction *)

(** X17.  The constructor replaces falsy style arguments by its defaults:
    [new Plot(id)], [new Plot(id, "", 0)] and [new Plot(id, "#000", 1)]
    build the same state, and so does a [NaN] width; a non-empty colour
    and a non-zero finite width are passed on as they are.  The new
    plotter has its pen at [(0, 0)], [isDrawing] false and no registry;
    its context is the one the element gives, and when there is none the
    surface has received nothing. *)
Theorem constructor_defaults (document : Document) (id : string) :
  let w := new_Plot document id None None in
  new_Plot document id (Some "") (Some (of_Z 0)) = w /\
  new_Plot document id (Some "#000") (Some (of_Z 1)) = w /\
  new_Plot document id None (Some NaN) = w /\
  pen w = Point.mk (of_Z 0) (of_Z 0) /\
  Plot.isDrawing (this w) = false /\
  Plot.rects (this w) = None /\
  Plot.canvas (this w) = document id /\
  Plot.context (this w) = context_of (document id) /\
  (context_of (document id) = None -> calls w = []) /\
  forall (colour : string) (width : num) (c : Context),
    context_of (document id) = Some c ->
    colour <> "" -> truthy width = true ->
    calls (new_Plot document id (Some colour) (Some width)) =
    [Ctx.set_strokeStyle colour; Ctx.set_lineWidth width].
Proof.
  cbn zeta. repeat match goal with |- _ /\ _ => split end;
    try reflexivity.
  - unfold new_Plot, context_of; cbn. now intros ->.
  - intros colour width c Hc Hne Hw. unfold new_Plot, context_of in *; cbn.
    rewrite Hc. unfold or_string, or_num. rewrite Hw.
    now rewrite bool_decide_eq_false_2.
Qed.

Lemma constructor_defaults_witness :
  context_of (page "plot") = Some Context2D /\
  calls (new_Plot page "plot" (Some "red") (Some (of_Z 2))) =
  [Ctx.set_strokeStyle "red"; Ctx.set_lineWidth (of_Z 2)].
Proof.
  split; [reflexivity|].
  refine (proj2 (proj2 (proj2 (proj2 (proj2 (proj2 (proj2 (proj2 (proj2
            (constructor_defaults page "plot"))))))))) "red" (of_Z 2)
            Context2D eq_refl _ eq_refl).
  discriminate.
Defined.

(** ** Absolute positioning, then relative drawing *)

Lemma home_is_move (w : World) :
  home w =
  move (Point.x (deref w (Plot.origin (this w))))
       (Point.y (deref w (Plot.origin (this w)))) true w.
Proof. reflexivity. Qed.

Lemma center_is_move (w : World) (e : Element.t) :
  Plot.canvas (this w) = Some e ->
  center w = move (Point.x (midpoint e)) (Point.y (midpoint e)) true w.
Proof.
  intros He. unfold center, bind at 1. now rewrite getCenter_eq, He.
Qed.

Lemma bind_congr {A B} (m m' : M A) (k : A -> M B) (w : World) :
  m w = m' w -> bind m k w = bind m' k w.
Proof. unfold bind. now intros ->. Qed.

(** X18.  On a reachable plotter with a context, [home()] makes the next
    relative call absolute: [home().line(dx, dy)] leaves the pen at
    [(dx, dy)] after sending [moveTo(0, 0)] and [lineTo(dx, dy)].
    Likewise [center().line(dx, dy)] leaves it at the midpoint plus
    [(dx, dy)], after a [moveTo] to the midpoint and a [lineTo] to the new
    pen position. *)
Theorem absolute_then_relative (g : Globals) (w : World) (e : Element.t)
    (dx dy : num) :
  reachable g w ->
  Plot.context (this w) = Some Context2D ->
  Plot.canvas (this w) = Some e ->
  let c := midpoint e in
  pen (after (home ;; line dx dy) w) = Point.mk dx dy /\
  calls (after (home ;; line dx dy) w) =
  (calls w ++ [Ctx.moveTo (of_Z 0) (of_Z 0); Ctx.lineTo dx dy])%list /\
  pen (after (center ;; line dx dy) w) =
  Point.mk (Point.x c + dx) (Point.y c + dy) /\
  calls (after (center ;; line dx dy) w) =
  (calls w ++
   [Ctx.moveTo (Point.x c) (Point.y c);
    Ctx.lineTo (Point.x c + dx) (Point.y c + dy)])%list.
Proof.
  intros Hw Hc He c.
  destruct (reachable_inv g w Hw) as (Ho & _ & _).
  assert (Hh : (home ;; line dx dy) w =
               (move (of_Z 0) (of_Z 0) true ;; line dx dy) w).
  { apply bind_congr. rewrite home_is_move. unfold deref. now rewrite Ho. }
  assert (Hm : (center ;; line dx dy) w =
               (move (Point.x c) (Point.y c) true ;; line dx dy) w).
  { apply bind_congr. now apply center_is_move. }
  unfold after. rewrite Hh, Hm.
  destruct (steps_bind e _ _ _ _ _ _ (steps_move_abs e (of_Z 0) (of_Z 0))
              (steps_line e dx dy) w Hc He) as (_ & Hp1 & Ht1 & _).
  destruct (steps_bind e _ _ _ _ _ _
              (steps_move_abs e (Point.x c) (Point.y c))
              (steps_line e dx dy) w Hc He) as (_ & Hp2 & Ht2 & _).
  unfold after in *. rewrite Hp1, Hp2, Ht1, Ht2.
  unfold shift; cbn [Point.x Point.y app].
  generalize (Point.x c) (Point.y c). intros cx cy.
  repeat match goal with |- _ /\ _ => split end;
    try (f_equal; []); trace_eq; num_eq_goal.
Qed.

Lemma absolute_then_relative_witness :
  reachable plot_js_globals plot57 /\
  Plot.context (this plot57) = Some Context2D /\
  Plot.canvas (this plot57) = Some canvas_200x100 /\
  pen (after (home ;; line (of_Z 3) (of_Z 4)) plot57) =
  Point.mk (of_Z 3) (of_Z 4).
Proof.
  assert (Hw : reachable plot_js_globals plot57)
    by (apply (reach_call plot_js_globals plot0
                 (Omove (of_Z 5) (of_Z 7) false)), reach_new).
  split; [exact Hw|]. split; [reflexivity|]. split; [reflexivity|].
  exact (proj1 (absolute_then_relative plot_js_globals plot57 canvas_200x100
                  (of_Z 3) (of_Z 4) Hw eq_refl eq_refl)).
Defined.

(** ** Style comes first *)

(** X19.  On every reachable plotter with a context, the first two things
    the surface received are the stroke colour and the line width set by
    the constructor, and these are never an empty colour, a zero width or
    a [NaN] width. *)
Theorem styles_are_set_first (g : Globals) (w : World) :
  reachable g w ->
  Plot.context (this w) = Some Context2D ->
  exists colour width rest,
    calls w =
    Ctx.set_strokeStyle colour :: Ctx.set_lineWidth width :: rest /\
    colour <> "" /\ truthy width = true.
Proof.
  induction 1 as [document id lineColor lineWidth | w o Hw IH]; intros Hc.
  - unfold new_Plot in *; cbn [this Plot.context calls] in *. rewrite Hc.
    do 3 eexists. split; [reflexivity|]. split.
    + unfold or_string. destruct lineColor as [v|]; [|discriminate].
      destruct (bool_decide (v = "")) eqn:E; [discriminate|].
      now apply bool_decide_eq_false in E.
    + unfold or_num. destruct lineWidth as [n|]; [|reflexivity].
      destruct (truthy n) eqn:E; [exact E | reflexivity].
  - destruct (ext_method g o w) as (_ & _ & _ & Ec & _ & [cs Es] & _).
    rewrite Ec in Hc.
    destruct (IH Hc) as (colour & width & rest & E & Hne & Ht).
    exists colour, width, (rest ++ cs)%list.
    split; [|now split]. now rewrite Es, E.
Qed.

Lemma styles_are_set_first_witness :
  reachable plot_js_globals plot57 /\
  Plot.context (this plot57) = Some Context2D /\
  exists colour width rest,
    calls plot57 =
    Ctx.set_strokeStyle colour :: Ctx.set_lineWidth width :: rest /\
    colour <> "" /\ truthy width = true.
Proof.
  assert (Hw : reachable plot_js_globals plot57)
    by (apply (reach_call plot_js_globals plot0
                 (Omove (of_Z 5) (of_Z 7) false)), reach_new).
  split; [exact Hw|]. split; [reflexivity|].
  exact (styles_are_set_first plot_js_globals plot57 Hw eq_refl).
Defined.
